(** * A fixed-capacity, handle-indexed object pool ([freelist_t<T>])

    Shallow embedding of [include/freelist.h] and the properties of its
    handle table, dense storage and free list.

    Conventions of the embedding:
    - [uint16_t], [uint32_t] and [size_t] values are integers in [Z]; every
      narrowing or wrapping operation of the source is written out with
      [mod];
    - the three heap arrays are lists; an access outside the allocated
      range is the outcome [Undefined] (the source performs no bounds
      check), a failed [assert] is the outcome [Fatal];
    - [new index_t[n]] and [new uint32_t[n]] leave their elements
      uninitialised: the constructor receives the bytes found there as an
      explicit argument ([uninit]);
    - the raw [char] buffer behind [_objects] is a list of [option T]:
      [None] is storage in which no object is alive. *)

From stdpp Require Import base numbers option list.

Open Scope Z_scope.

(** ** Outcomes of an operation *)

Inductive result (A : Type) : Type :=
| Ok (a : A)
| Fatal
| Undefined.
Arguments Ok {A} a.
Arguments Fatal {A}.
Arguments Undefined {A}.

Global Instance result_ret : MRet result := λ A a, Ok a.
Global Instance result_bind : MBind result := λ A B k m,
  match m with
  | Ok a => k a
  | Fatal => Fatal
  | Undefined => Undefined
  end.

(** [assert(c)] followed by the rest of the function. *)
Definition assert {A} (c : bool) (k : result A) : result A :=
  if c then k else Fatal.

(** ** Arrays with unchecked indices *)

Definition read {A} (a : list A) (i : Z) : result A :=
  if bool_decide (0 ≤ i) then
    match a !! Z.to_nat i with
    | Some x => Ok x
    | None => Undefined
    end
  else Undefined.

Definition write {A} (a : list A) (i : Z) (x : A) : result (list A) :=
  if bool_decide (0 ≤ i < Z.of_nat (length a)) then Ok (<[Z.to_nat i := x]> a)
  else Undefined.

Abbreviation len a := (Z.of_nat (length a)).

(** ** Constants and the slot record *)

Definition index_mask : Z := 0xFFFF.
Definition tombstone : Z := 0xFFFF.
Definition new_object_id_add : Z := 0x10000.

Definition uint16_mod : Z := 0x10000.
Definition uint32_mod : Z := 0x100000000.
Definition size_mod : Z := 0x10000000000000000.

Record index_t : Type := mk_index_t {
  id : Z;
  index : Z;
  next : Z
}.

Definition set_index (v : Z) (s : index_t) : index_t :=
  {| id := id s; index := v; next := next s |}.
Definition set_next (v : Z) (s : index_t) : index_t :=
  {| id := id s; index := index s; next := v |}.

(** [a[i].field = v] on the slot table. *)
Definition update (f : index_t → index_t) (a : list index_t) (i : Z)
  : result (list index_t) :=
  s ← read a i; write a i (f s).

(** [for (size_t i = first; ...; i++) body], for a loop that makes
    [rounds] rounds: the state after the last round, or the first outcome
    that is not [Ok]. *)
Fixpoint for_loop {S : Type} (body : Z → S → result S) (i : Z) (rounds : nat)
    (st : S) : result S :=
  match rounds with
  | O => Ok st
  | S r => st' ← body i st; for_loop body (i + 1) r st'
  end.

(** What [new index_t[n]] and [new uint32_t[n]] hand out: the previous
    content of the memory, element by element. *)
Record uninit : Type := mk_uninit {
  uninit_index : nat → Z;
  uninit_object_id : nat → Z
}.

Section Pool.
Context {T : Type}.

Record freelist_t : Type := mk_freelist_t {
  _num_objects : Z;
  _max_objects : Z;
  _cap_objects : Z;
  _objects : list (option T);
  _object_ids : list Z;
  _indices : list index_t;
  _enqueue : Z
}.

(** *** Constructors *)

(** [freelist_t()] : null pointers are arrays of length zero. *)
Definition freelist_default : freelist_t :=
  {| _num_objects := 0; _max_objects := 0; _cap_objects := 0;
     _objects := []; _object_ids := []; _indices := []; _enqueue := 0 |}.

(** The slot [i] after the initialisation loop: [id] and [next] are
    assigned, [index] keeps what the allocation left there. *)
Definition init_slot (u : uninit) (i : nat) : index_t :=
  {| id := Z.of_nat i mod uint32_mod;
     index := uninit_index u i mod uint16_mod;
     next := (Z.of_nat i + 1) mod uint16_mod |}.

(** [freelist_t(size_t max_objects)] *)
Definition freelist_new (max_objects : Z) (u : uninit) : result freelist_t :=
  assert (bool_decide (max_objects < 0xFFFF))
    (let n := Z.to_nat max_objects in
     Ok {| _num_objects := 0;
           _max_objects := max_objects;
           _cap_objects := max_objects;
           _objects := replicate n None;
           _object_ids := (λ i, uninit_object_id u i mod uint32_mod) <$> seq 0 n;
           _indices := init_slot u <$> seq 0 n;
           _enqueue := 0 |}).

(** *** Swap and move *)

Definition swap (this other : freelist_t) : freelist_t * freelist_t :=
  ({| _num_objects := _num_objects other; _max_objects := _max_objects other;
      _cap_objects := _cap_objects other; _objects := _objects other;
      _object_ids := _object_ids other; _indices := _indices other;
      _enqueue := _enqueue other |},
   {| _num_objects := _num_objects this; _max_objects := _max_objects this;
      _cap_objects := _cap_objects this; _objects := _objects this;
      _object_ids := _object_ids this; _indices := _indices this;
      _enqueue := _enqueue this |}).

(** [freelist_t(freelist_t&& other)] : the new object and what is left in
    [other]. *)
Definition move_construct (other : freelist_t) : freelist_t * freelist_t :=
  swap freelist_default other.

(** [operator=(freelist_t&&)], with both pools held in a store [m] at the
    addresses [this] and [other], which it compares before it swaps. *)
Definition move_assign (this other : nat) (m : list freelist_t)
  : result (list freelist_t) :=
  a ← read m (Z.of_nat this);
  b ← read m (Z.of_nat other);
  if bool_decide (this ≠ other) then
    let '(a', b') := swap a b in
    Ok (<[other := b']> (<[this := a']> m))
  else Ok m.

(** *** Destruction and copy *)

(** The loop of [~freelist_t()]: the destructor of every object at the
    dense positions below [_num_objects] runs, in that order. The outcome
    lists the objects destroyed. *)
Definition destroy_elements (fl : freelist_t) : result (list T) :=
  for_loop
    (λ i done,
       o ← read (_objects fl) i;
       match o with
       | Some v => Ok (done ++ [v])
       | None => Undefined
       end)
    0 (Z.to_nat (_num_objects fl)) [].

(** [delete[] _objects]. On the null pointer it does nothing. Every other
    value of [_objects] was obtained by a constructor as [new char[...]]
    and converted to a pointer to [T]: an array of [char] is released as
    an array of [T] (a class type, whose member [id] [insert] reads), and
    the array delete expression is undefined. *)
Definition delete_objects (null : bool) : result () :=
  if null then Ok () else Undefined.

(** [~freelist_t()]: the loop, then [delete[] _objects],
    [delete[] _object_ids] and [delete[] _indices]. The last two release
    arrays under the element type they were allocated with and leave
    nothing behind in this model. The record keeps what the arrays hold,
    not where they are: [null] says whether [_objects] is the null
    pointer, as in a pool made by [freelist_t()] or emptied by a move. The
    outcome lists the objects destroyed. *)
Definition destructor (null : bool) (fl : freelist_t) : result (list T) :=
  destroyed ← destroy_elements fl;
  delete_objects null ;;
  Ok destroyed.

(** One round of the first loop of the copy constructor:
    [new (_objects + i) T(other._objects[i])] and
    [_object_ids[i] = other._object_ids[i]]. *)
Definition copy_element (other : freelist_t) (i : Z)
    (st : list (option T) * list Z) : result (list (option T) * list Z) :=
  o ← read (_objects other) i;
  match o with
  | Some v =>
    objs ← write st.1 i (Some v);
    h ← read (_object_ids other) i;
    ids ← write st.2 i h;
    Ok (objs, ids)
  | None => Undefined
  end.

(** One round of the loop over the slot table:
    [_indices[i] = other._indices[i]]. *)
Definition copy_slot (other : freelist_t) (i : Z) (inds : list index_t)
  : result (list index_t) :=
  s ← read (_indices other) i; write inds i s.

(** [freelist_t(const freelist_t& other)]. The three arrays are allocated
    with [other._max_objects] elements; [raw] is what [new index_t[n]]
    hands out, [u] what [new uint32_t[n]] does. *)
Definition copy_construct (other : freelist_t) (u : uninit)
    (raw : nat → index_t) : result freelist_t :=
  let n := Z.to_nat (_max_objects other) in
  '(objs, ids) ← for_loop (copy_element other) 0
                   (Z.to_nat (_num_objects other))
                   (replicate n None,
                    (λ i, uninit_object_id u i mod uint32_mod) <$> seq 0 n);
  inds ← for_loop (copy_slot other) 0 n (raw <$> seq 0 n);
  Ok {| _num_objects := _num_objects other;
        _max_objects := _max_objects other;
        _cap_objects := _cap_objects other;
        _objects := objs;
        _object_ids := ids;
        _indices := inds;
        _enqueue := _enqueue other |}.

(** One round of the first loop of the copy assignment, in place: below
    [num] (the count of the destination) the object at [i] is assigned to,
    from there on it is constructed; either way the value of the source's
    object is at [i] afterwards. *)
Definition assign_element (other : freelist_t) (num : Z) (i : Z)
    (st : list (option T) * list Z) : result (list (option T) * list Z) :=
  o ← read (_objects other) i;
  match o with
  | Some v =>
    objs ← (if bool_decide (i < num) then write st.1 i (Some v)
            else write st.1 i (Some v));
    h ← read (_object_ids other) i;
    ids ← write st.2 i h;
    Ok (objs, ids)
  | None => Undefined
  end.

(** [operator=(const freelist_t& other)], with both pools held in a store
    [m] at the addresses [this] and [other]; [null] says whether
    [_objects] of the destination is the null pointer. The outcome is the
    store and the objects whose destructor ran. *)
Definition copy_assign (this other : nat) (m : list freelist_t) (null : bool)
    (u : uninit) (raw : nat → index_t) : result (list freelist_t * list T) :=
  a ← read m (Z.of_nat this);
  b ← read m (Z.of_nat other);
  if bool_decide (this ≠ other) then
    if bool_decide (_cap_objects a < _max_objects b) then
      destroyed ← destructor null a;
      c ← copy_construct b u raw;
      Ok (<[this := c]> m, destroyed)
    else
      '(objs, ids) ← for_loop (assign_element b (_num_objects a)) 0
                       (Z.to_nat (_num_objects b))
                       (_objects a, _object_ids a);
      inds ← for_loop (copy_slot b) 0 (Z.to_nat (_max_objects b))
               (_indices a);
      Ok (<[this := {| _num_objects := _num_objects b;
                       _max_objects := _max_objects b;
                       _cap_objects := _cap_objects a;
                       _objects := objs;
                       _object_ids := ids;
                       _indices := inds;
                       _enqueue := _enqueue b |}]> m, [])
  else Ok (m, []).

(** *** Handle validation and lookup *)

(** [contains(uint32_t id)]: [in.id == id && in.index != tombstone] for
    [in = _indices[id & index_mask]]. *)
Definition contains (fl : freelist_t) (h : Z) : result bool :=
  s ← read (_indices fl) (Z.land h index_mask);
  Ok (bool_decide (id s = h) && negb (bool_decide (index s = tombstone))).

(** [operator[]]: the object at [_objects + _indices[id & index_mask].index];
    storage without a live object gives no value. *)
Definition subscript (fl : freelist_t) (h : Z) : result T :=
  s ← read (_indices fl) (Z.land h index_mask);
  o ← read (_objects fl) (index s);
  match o with
  | Some v => Ok v
  | None => Undefined
  end.

(** *** Insertion *)

(** [insert_alloc()]. The pointer [in] it returns is given as the position
    in [_indices] of the slot record it points to.
    - [assert(_num_objects <= _max_objects)];
    - [in = &_indices[_enqueue]; _enqueue = in->next];
    - [in->id += new_object_id_add], in 32 bits;
    - [in->index = (uint16_t)_num_objects++];
    - [_object_ids[in->index] = in->id]. *)
Definition insert_alloc (fl : freelist_t) : result (Z * freelist_t) :=
  assert (bool_decide (_num_objects fl ≤ _max_objects fl))
    (let e := _enqueue fl in
     s ← read (_indices fl) e;
     let s' := {| id := (id s + new_object_id_add) mod uint32_mod;
                  index := _num_objects fl mod uint16_mod;
                  next := next s |} in
     inds ← write (_indices fl) e s';
     ids ← write (_object_ids fl) (index s') (id s');
     Ok (e, {| _num_objects := (_num_objects fl + 1) mod size_mod;
               _max_objects := _max_objects fl;
               _cap_objects := _cap_objects fl;
               _objects := _objects fl;
               _object_ids := ids;
               _indices := inds;
               _enqueue := next s |})).

(** [new (o) T(val)] at [_objects + p]. *)
Definition construct_at (fl : freelist_t) (p : Z) (val : T) : result freelist_t :=
  objs ← write (_objects fl) p (Some val);
  Ok {| _num_objects := _num_objects fl; _max_objects := _max_objects fl;
        _cap_objects := _cap_objects fl; _objects := objs;
        _object_ids := _object_ids fl; _indices := _indices fl;
        _enqueue := _enqueue fl |}.

Section Insert.
(** [insert] ends in [return o->id]: it reads the member [id] of the object
    it has just constructed. [T_id v] is that member of [v], as the
    [uint32_t] returned. *)
Variable T_id : T → Z.

(** [insert(const T& val)] and [insert(T&& val)]: copying and moving [val]
    into the pool both leave the value [val] there. *)
Definition insert (fl : freelist_t) (val : T) : result (Z * freelist_t) :=
  '(e, fl1) ← insert_alloc fl;
  s ← read (_indices fl1) e;
  fl2 ← construct_at fl1 (index s) val;
  o ← read (_objects fl2) (index s);
  match o with
  | Some v => Ok (T_id v, fl2)
  | None => Undefined
  end.
End Insert.

(** [emplace(Args&&... args)], [val] being the object that [T(args...)]
    constructs; it ends in [return in->id]. *)
Definition emplace (fl : freelist_t) (val : T) : result (Z * freelist_t) :=
  '(e, fl1) ← insert_alloc fl;
  s ← read (_indices fl1) e;
  fl2 ← construct_at fl1 (index s) val;
  s' ← read (_indices fl2) e;
  Ok (id s', fl2).

(** *** Removal *)

(** [erase(uint32_t id)], statement by statement:
    - [assert(contains(id))];
    - [in = &_indices[id & index_mask]], [o = _objects + in->index] ([p]);
    - [_num_objects = _num_objects - 1] ([n]), [last = _objects + n];
    - the last object is move-assigned to [o];
    - [_object_ids[in->index] = _object_ids[_num_objects]];
    - the destructor of the last object runs;
    - [_indices[_object_ids[in->index] & index_mask].index = in->index];
    - [in->index = tombstone];
    - [_indices[id & index_mask].next = _enqueue];
    - [_enqueue = id & index_mask]. *)
Definition erase (fl : freelist_t) (h : Z) : result freelist_t :=
  c ← contains fl h;
  assert c
    (let i := Z.land h index_mask in
     s ← read (_indices fl) i;
     let p := index s in
     let n := (_num_objects fl - 1) mod size_mod in
     l ← read (_objects fl) n;
     match l with
     | None => Undefined
     | Some v =>
       objs ← write (_objects fl) p (Some v);
       hl ← read (_object_ids fl) n;
       ids ← write (_object_ids fl) p hl;
       objs' ← write objs n None;
       hm ← read ids p;
       inds1 ← update (set_index p) (_indices fl) (Z.land hm index_mask);
       inds2 ← update (set_index tombstone) inds1 i;
       inds3 ← update (set_next (_enqueue fl)) inds2 i;
       Ok {| _num_objects := n;
             _max_objects := _max_objects fl;
             _cap_objects := _cap_objects fl;
             _objects := objs';
             _object_ids := ids;
             _indices := inds3;
             _enqueue := i |}
     end).

(** *** Iteration *)

(** An iterator is a pointer into [_object_ids], kept as its offset. *)
Record iterator : Type := mk_iterator { _curr_object_id : Z }.

Definition begin_ (fl : freelist_t) : iterator :=
  {| _curr_object_id := 0 |}.
Definition end_ (fl : freelist_t) : iterator :=
  {| _curr_object_id := _num_objects fl |}.
Definition iterator_incr (it : iterator) : iterator :=
  {| _curr_object_id := _curr_object_id it + 1 |}.
Definition iterator_deref (fl : freelist_t) (it : iterator) : result Z :=
  read (_object_ids fl) (_curr_object_id it).
Definition iterator_neq (a b : iterator) : bool :=
  negb (bool_decide (_curr_object_id a = _curr_object_id b)).

(** The range-based loop [for (auto h : fl)], collecting what each
    dereference yields, from [it] up to [last]. [None] when the loop is
    still running after [fuel] rounds. *)
Fixpoint range_for (fuel : nat) (fl : freelist_t) (it last : iterator)
  : option (result (list Z)) :=
  if iterator_neq it last then
    match fuel with
    | O => None
    | S fuel' =>
      match iterator_deref fl it with
      | Ok h =>
        match range_for fuel' fl (iterator_incr it) last with
        | Some (Ok hs) => Some (Ok (h :: hs))
        | r => r
        end
      | Fatal => Some Fatal
      | Undefined => Some Undefined
      end
    end
  else Some (Ok []).

Definition handles (fuel : nat) (fl : freelist_t) : option (result (list Z)) :=
  range_for fuel fl (begin_ fl) (end_ fl).

End Pool.
Arguments freelist_t : clear implicits.

(** ** Clients: sequences of operations *)

Definition slot_of (h : Z) : Z := Z.land h index_mask.

Section Client.
Context {T : Type}.
Variable T_id : T → Z.

Inductive op : Type :=
| Insert (v : T)
| Emplace (v : T)
| Erase (h : Z).

(** A pool and the book its client keeps: the handle and the value of
    every element stored and not erased since, newest first. *)
Definition tracked : Type := freelist_t T * list (Z * T).

Definition forget (h : Z) (live : list (Z * T)) : list (Z * T) :=
  filter (λ x, x.1 ≠ h) live.

(** For [Insert] the book records the handle the pool gave the element
    (the entry of the handle mirror), not the return value of [insert]. *)
Definition step (s : tracked) (o : op) : result tracked :=
  match o with
  | Insert v =>
    '(_, fl') ← insert T_id s.1 v;
    h ← read (_object_ids fl') (_num_objects s.1);
    Ok (fl', (h, v) :: s.2)
  | Emplace v =>
    '(h, fl') ← emplace s.1 v;
    Ok (fl', (h, v) :: s.2)
  | Erase h =>
    fl' ← erase s.1 h;
    Ok (fl', forget h s.2)
  end.

(** The contract of the pool: insert while there is room, erase handles
    that were handed out and not erased. *)
Definition permitted (s : tracked) (o : op) : bool :=
  match o with
  | Insert _ | Emplace _ => bool_decide (_num_objects s.1 < _max_objects s.1)
  | Erase h => bool_decide (h ∈ s.2.*1)
  end.

Fixpoint run (s : tracked) (ops : list op) : result tracked :=
  match ops with
  | [] => Ok s
  | o :: ops' => s' ← step s o; run s' ops'
  end.

Fixpoint within_contract (s : tracked) (ops : list op) : bool :=
  match ops with
  | [] => true
  | o :: ops' =>
    permitted s o &&
    match step s o with
    | Ok s' => within_contract s' ops'
    | _ => false
    end
  end.

Definition is_insertion (o : op) : bool :=
  match o with
  | Erase _ => false
  | _ => true
  end.

Definition insertions (ops : list op) : Z :=
  Z.of_nat (length (filter is_insertion ops)).

Definition erasures (ops : list op) : Z :=
  Z.of_nat (length (filter (λ o, negb (is_insertion o)) ops)).

(** How many of the insertions of [ops], run from [s], take the slot [i]:
    [insert_alloc] takes the slot at the head of the free list. *)
Fixpoint handed_out (i : Z) (s : tracked) (ops : list op) : Z :=
  match ops with
  | [] => 0
  | o :: ops' =>
    (if is_insertion o && bool_decide (_enqueue s.1 = i) then 1 else 0) +
    match step s o with
    | Ok s' => handed_out i s' ops'
    | _ => 0
    end
  end.

(** [n] rounds of storing an element and erasing it again, when the
    first of them is given the handle [h]. *)
Fixpoint churn (v : T) (h : Z) (n : nat) : list op :=
  match n with
  | O => []
  | S n' =>
    Emplace v :: Erase h ::
      churn v ((h + new_object_id_add) mod uint32_mod) n'
  end.

Definition reachable (C : Z) (u : uninit) (s : tracked) : Prop :=
  ∃ fl0 ops,
    0 ≤ C ∧
    freelist_new C u = Ok fl0 ∧
    within_contract (fl0, []) ops = true ∧
    run (fl0, []) ops = Ok s.

End Client.
Arguments op : clear implicits.
Arguments tracked : clear implicits.

(** * Specification-level definitions *)

(** ** The representation invariant *)

Section Representation.
Context {T : Type}.
Implicit Types (fl : freelist_t T) (live : list (Z * T)) (h p i : Z) (v : T).

(** The element [v] of handle [h] lives at dense position [p]: the slot
    of [h] carries [h] and points to [p], the handle mirror has [h] at
    [p] and the dense storage has [v] there. *)
Definition owns fl h v p : Prop :=
  ∃ s, read (_indices fl) (slot_of h) = Ok s ∧ id s = h ∧ index s = p ∧
       read (_object_ids fl) p = Ok h ∧
       read (_objects fl) p = Ok (Some v).

Definition occupied live i : Prop :=
  ∃ h v, (h, v) ∈ live ∧ slot_of h = i.

(** [fr] is the free list: the slots met from [e] along [next], up to
    the index [stop] one past the slot table. *)
Fixpoint chain (a : list index_t) (stop e : Z) (fr : list Z) : Prop :=
  match fr with
  | [] => e = stop
  | i :: fr' => i = e ∧ ∃ s, read a i = Ok s ∧ chain a stop (next s) fr'
  end.

(** A free slot either was erased, or has not been used since the
    constructor, which wrote its [id] and [next] only. *)
Definition erased_or_fresh (a : list index_t) i : Prop :=
  ∀ s, read a i = Ok s → index s = tombstone ∨ id s = i.

Record wf (C : Z) (st : tracked T) : Prop := mk_wf {
  wf_capacity : 0 ≤ C < 0xFFFF;
  wf_max : _max_objects st.1 = C;
  wf_indices : len (_indices st.1) = C;
  wf_object_ids : len (_object_ids st.1) = C;
  wf_objects : len (_objects st.1) = C;
  wf_num : _num_objects st.1 = len st.2;
  wf_slots : ∀ i s, read (_indices st.1) i = Ok s →
               0 ≤ id s < uint32_mod ∧ slot_of (id s) = i;
  wf_live : ∀ h v, (h, v) ∈ st.2 →
              ∃ p, 0 ≤ p < _num_objects st.1 ∧ owns st.1 h v p;
  wf_dense : ∀ p, 0 ≤ p < _num_objects st.1 →
              ∃ h v, (h, v) ∈ st.2 ∧ owns st.1 h v p;
  wf_nodup : NoDup st.2.*1;
  wf_free : ∃ fr, chain (_indices st.1) C (_enqueue st.1) fr ∧
              NoDup fr ∧
              len fr = C - _num_objects st.1 ∧
              (∀ i, i ∈ fr → ¬ occupied st.2 i ∧
                             erased_or_fresh (_indices st.1) i) ∧
              (∀ i, 0 ≤ i < C → i ∈ fr ∨ occupied st.2 i)
}.

End Representation.

(** ** States met in the proofs *)

Section Shapes.
Context {T : Type}.
Implicit Types (fl : freelist_t T) (h k : Z) (v : T).

(** The handle a slot yields at its next use. *)
Definition bump (s : index_t) : Z := (id s + new_object_id_add) mod uint32_mod.

(** The pool after an element was stored through the free slot [s] at the
    head of the free list. *)
Definition placed fl (s : index_t) v : freelist_t T :=
  {| _num_objects := _num_objects fl + 1;
     _max_objects := _max_objects fl;
     _cap_objects := _cap_objects fl;
     _objects := <[Z.to_nat (_num_objects fl) := Some v]> (_objects fl);
     _object_ids := <[Z.to_nat (_num_objects fl) := bump s]> (_object_ids fl);
     _indices := <[Z.to_nat (_enqueue fl) :=
                    {| id := bump s; index := _num_objects fl; next := next s |}]>
                   (_indices fl);
     _enqueue := next s |}.

(** The slot of the erased handle [h] was handed out [k] more times. *)
Definition reused fl h k : Prop :=
  ∃ sl, read (_indices fl) (slot_of h) = Ok sl ∧
        id sl = (h + k * new_object_id_add) mod uint32_mod ∧
        (k = 0 → index sl = tombstone).



End Shapes.

(** ** A concrete element type and pool for examples *)

Record item : Type := mk_item { item_id : Z; item_data : Z }.

Definition zeroed : uninit :=
  {| uninit_index := λ _, 0; uninit_object_id := λ _, 0 |}.

Definition pool_of (C : Z) : freelist_t item :=
  match freelist_new C zeroed with
  | Ok fl => fl
  | _ => freelist_default
  end.

(** The pool of capacity [C] and the book of its client after [ops]. *)
Definition after (C : Z) (ops : list (op item)) : tracked item :=
  match run item_id (pool_of C, []) ops with
  | Ok s => s
  | _ => (freelist_default, [])
  end.

Definition item_a : item := {| item_id := 7; item_data := 100 |}.
Definition item_b : item := {| item_id := 8; item_data := 200 |}.
Definition item_c : item := {| item_id := 9; item_data := 300 |}.
Definition item_0 : item := {| item_id := 0; item_data := 42 |}.

(** 65535 rounds of storing and erasing, and one more insertion: the
    handles erased are [0x20000], [0x30000], ... *)
Definition wrap_ops : list (op item) :=
  churn item_a 0x20000 (Z.to_nat 65535) ++ [Emplace item_a].

(** Three pools for examples: capacity 4 with three elements, capacity 2
    and full, capacity 3 with one element; and a slot table as an
    allocation may hand it out. *)
Definition pool_abc : tracked item :=
  after 4 [Emplace item_a; Emplace item_b; Emplace item_c].
Definition pool_ab : tracked item := after 2 [Emplace item_a; Emplace item_b].
Definition pool_c : tracked item := after 3 [Emplace item_c].
Definition raw_zero : nat → index_t := λ _, {| id := 0; index := 0; next := 0 |}.

(** A pool of capacity 4 with two elements, and operations from the fresh
    pool that [erase] the value 2, which no insertion gave out: the index
    of a slot not used yet. *)
Definition pool_ab4 : tracked item := after 4 [Emplace item_a; Emplace item_b].
Definition stray_ops : list (op item) :=
  [Emplace item_a; Emplace item_b; Erase 2; Emplace item_c; Emplace item_0].

(** * Properties *)

(** ** The outcome monad *)

Lemma bind_Ok {A B} (m : result A) (k : A → result B) (b : B) :
  m ≫= k = Ok b → ∃ a, m = Ok a ∧ k a = Ok b.
Proof. destruct m as [a| |]; simpl; [eauto | discriminate | discriminate]. Qed.

Lemma assert_Ok {A} (c : bool) (k : result A) (a : A) :
  assert c k = Ok a → c = true ∧ k = Ok a.
Proof. destruct c; simpl; [auto | discriminate]. Qed.

Lemma Ok_bind {A B} (a : A) (f : A → result B) : Ok a ≫= f = f a.
Proof. reflexivity. Qed.

(** Takes a hypothesis [m ≫= k = Ok b] apart, as often as it applies. *)
Ltac inv_Ok H :=
  let x := fresh "x" in
  let Hx := fresh "Hx" in
  first
    [ apply assert_Ok in H; destruct H as [Hx H]; try inv_Ok H
    | apply bind_Ok in H; destruct H as (x & Hx & H); try inv_Ok H ].

(** ** Unchecked arrays *)

Lemma read_Ok {A} (a : list A) (i : Z) (x : A) :
  read a i = Ok x ↔ 0 ≤ i ∧ a !! Z.to_nat i = Some x.
Proof.
  unfold read. case_bool_decide.
  - destruct (a !! Z.to_nat i); split; try (intros [_ ?]); try intros ?;
      simplify_eq; auto; discriminate.
  - split; [discriminate | intros [? _]; lia].
Qed.

Lemma read_range {A} (a : list A) (i : Z) (x : A) :
  read a i = Ok x → 0 ≤ i < len a.
Proof.
  intros [? H%lookup_lt_Some]%read_Ok. lia.
Qed.

Lemma read_in_range {A} (a : list A) (i : Z) :
  0 ≤ i < len a → ∃ x, read a i = Ok x.
Proof.
  intros Hi. destruct (lookup_lt_is_Some_2 a (Z.to_nat i)) as [x Hx]; [lia|].
  exists x. apply read_Ok. split; [lia | done].
Qed.

Lemma read_out_of_range {A} (a : list A) (i : Z) :
  ¬ 0 ≤ i < len a → read a i = Undefined.
Proof.
  intros Hi. unfold read. case_bool_decide; [|done].
  rewrite lookup_ge_None_2; [done | lia].
Qed.

Lemma write_Ok {A} (a a' : list A) (i : Z) (x : A) :
  write a i x = Ok a' → 0 ≤ i < len a ∧ a' = <[Z.to_nat i := x]> a.
Proof. unfold write. case_bool_decide; intros; simplify_eq; auto. Qed.

Lemma write_in_range {A} (a : list A) (i : Z) (x : A) :
  0 ≤ i < len a → write a i x = Ok (<[Z.to_nat i := x]> a).
Proof. intros. unfold write. rewrite bool_decide_true; done. Qed.

Lemma write_length {A} (a a' : list A) (i : Z) (x : A) :
  write a i x = Ok a' → length a' = length a.
Proof. intros [_ ->]%write_Ok. apply length_insert. Qed.

Lemma read_write_eq {A} (a a' : list A) (i : Z) (x : A) :
  write a i x = Ok a' → read a' i = Ok x.
Proof.
  intros [Hi ->]%write_Ok. apply read_Ok. split; [lia|].
  apply list_lookup_insert_eq. lia.
Qed.

Lemma read_write_ne {A} (a a' : list A) (i j : Z) (x : A) :
  write a i x = Ok a' → i ≠ j → read a' j = read a j.
Proof.
  intros [Hi ->]%write_Ok Hne. unfold read. case_bool_decide; [|done].
  rewrite list_lookup_insert_ne; [done | lia].
Qed.

Lemma update_Ok (f : index_t → index_t) (a a' : list index_t) (i : Z) :
  update f a i = Ok a' →
  ∃ s, read a i = Ok s ∧ read a' i = Ok (f s) ∧
       (∀ j, j ≠ i → read a' j = read a j) ∧ length a' = length a.
Proof.
  unfold update. intros H. inv_Ok H. exists x. split; [done|].
  split; [by eapply read_write_eq|].
  split; [|by eapply write_length].
  intros j Hj. eapply read_write_ne; eauto.
Qed.

Lemma update_in_range (f : index_t → index_t) (a : list index_t) (i : Z) :
  0 ≤ i < len a → ∃ a', update f a i = Ok a'.
Proof.
  intros Hi. destruct (read_in_range a i Hi) as [s Hs].
  unfold update. rewrite Hs. simpl. rewrite write_in_range by done. eauto.
Qed.

Lemma read_insert_eq {A} (a : list A) (i : Z) (x : A) :
  0 ≤ i < len a → read (<[Z.to_nat i := x]> a) i = Ok x.
Proof. intros Hi. eapply read_write_eq. by apply write_in_range. Qed.

Lemma read_insert_ne {A} (a : list A) (i j : Z) (x : A) :
  0 ≤ i → i ≠ j → read (<[Z.to_nat i := x]> a) j = read a j.
Proof.
  intros Hi Hne. unfold read. case_bool_decide; [|done].
  rewrite list_lookup_insert_ne; [done | lia].
Qed.

Lemma read_not_fatal {A} (a : list A) (j : Z) : read a j ≠ Fatal.
Proof.
  unfold read. case_bool_decide; [|done]. by destruct (a !! Z.to_nat j).
Qed.

Lemma write_not_fatal {A} (a : list A) (j : Z) (x : A) : write a j x ≠ Fatal.
Proof. unfold write. by case_bool_decide. Qed.

(** ** Handles *)

Lemma slot_of_mod (h : Z) : slot_of h = h mod uint16_mod.
Proof.
  unfold slot_of, index_mask. change 0xFFFF with (Z.ones 16).
  rewrite Z.land_ones by lia. reflexivity.
Qed.

Lemma slot_of_range (h : Z) : 0 ≤ slot_of h < uint16_mod.
Proof. rewrite slot_of_mod. apply Z.mod_pos_bound. done. Qed.

(** The generation bump keeps the slot index of a handle. *)
Lemma slot_of_bump (h : Z) :
  slot_of ((h + new_object_id_add) mod uint32_mod) = slot_of h.
Proof.
  rewrite !slot_of_mod. unfold new_object_id_add, uint32_mod, uint16_mod.
  rewrite Z.mod_mod_divide by (by exists 0x10000).
  rewrite <- (Z.mul_1_l 0x10000) at 1. apply Z.mod_add. lia.
Qed.

(** ** Facts about the invariant *)

Section Invariant.
Context {T : Type}.
Implicit Types (fl : freelist_t T) (live : list (Z * T)) (h p i : Z) (v : T).

(** *** Facts about [owns] and [chain] *)

Lemma owns_handle fl h h' v v' p :
  owns fl h v p → owns fl h' v' p → h = h' ∧ v = v'.
Proof.
  intros (s & _ & _ & _ & Hh & Hv) (s' & _ & _ & _ & Hh' & Hv').
  split; congruence.
Qed.

Lemma owns_position fl h v v' p p' :
  owns fl h v p → owns fl h v' p' → p = p'.
Proof.
  intros (s & Hs & _ & Hp & _) (s' & Hs' & _ & Hp' & _). congruence.
Qed.

Lemma owns_slot fl h h' v v' p p' :
  owns fl h v p → owns fl h' v' p' → slot_of h = slot_of h' → h = h'.
Proof.
  intros (s & Hs & Hi & _) (s' & Hs' & Hi' & _) E.
  rewrite E in Hs. congruence.
Qed.

Lemma chain_ext (a a' : list index_t) stop e fr :
  (∀ i, i ∈ fr → read a' i = read a i) →
  chain a stop e fr → chain a' stop e fr.
Proof.
  revert e. induction fr as [|i fr IH]; intros e Hext; simpl; [done|].
  intros [-> (s & Hs & Hc)]. split; [done|]. exists s. split.
  - rewrite Hext; [done | left].
  - apply IH; [|done]. intros j Hj. apply Hext. by right.
Qed.

Lemma chain_in_range (a : list index_t) stop e fr i :
  chain a stop e fr → i ∈ fr → 0 ≤ i < len a.
Proof.
  revert e. induction fr as [|j fr IH]; intros e; simpl.
  - intros _ Hi. by apply not_elem_of_nil in Hi.
  - intros [-> (s & Hs & Hc)] [->|Hi]%elem_of_cons; [by eapply read_range|].
    by eapply IH.
Qed.

(** *** Facts about the client's book *)

Lemma forget_elem_of live h h' v :
  (h', v) ∈ forget h live ↔ (h', v) ∈ live ∧ h' ≠ h.
Proof. unfold forget. rewrite list_elem_of_filter. simpl. tauto. Qed.

Lemma forget_nodup live h : NoDup live.*1 → NoDup (forget h live).*1.
Proof.
  unfold forget. induction live as [|[h' v] live IH]; csimpl; [done|].
  intros [Hn Hd]%NoDup_cons. rewrite filter_cons. simpl.
  case_decide; csimpl; [|by apply IH].
  apply NoDup_cons. split; [|by apply IH].
  intros ((h'' & v'') & E & Hin)%list_elem_of_fmap. simpl in E. subst h''.
  apply list_elem_of_filter in Hin as [_ Hin].
  apply Hn. apply list_elem_of_fmap. by exists (h', v'').
Qed.

Lemma forget_absent live h : h ∉ live.*1 → forget h live = live.
Proof.
  unfold forget. induction live as [|[h' v] live IH]; csimpl; [done|].
  intros [Hne Hn]%not_elem_of_cons. rewrite filter_cons. simpl.
  rewrite decide_True by done. f_equal. by apply IH.
Qed.

Lemma forget_length live h :
  NoDup live.*1 → h ∈ live.*1 → len (forget h live) = len live - 1.
Proof.
  induction live as [|[h' v] live IH]; csimpl.
  - intros _ Hin. by apply not_elem_of_nil in Hin.
  - intros [Hn Hd]%NoDup_cons Hin. unfold forget.
    rewrite filter_cons. simpl. case_decide as Hh.
    + apply elem_of_cons in Hin as [->|Hin]; [done|].
      simpl. fold (forget h live). rewrite Nat2Z.inj_succ, IH by done. lia.
    + subst h'. fold (forget h live).
      rewrite forget_absent by done. lia.
Qed.

End Invariant.

(** ** The constructor establishes the invariant *)

Section Construction.
Context {T : Type}.

Lemma read_init_slot (u : uninit) (n : nat) (i : Z) (s : index_t) :
  read (init_slot u <$> seq 0 n) i = Ok s →
  0 ≤ i < Z.of_nat n ∧ s = init_slot u (Z.to_nat i).
Proof.
  intros [Hi Hs]%read_Ok. rewrite list_lookup_fmap in Hs.
  destruct (seq 0 n !! Z.to_nat i) as [k|] eqn:Hk; [|done].
  apply lookup_seq in Hk as [-> Hlt]. simpl in Hs. simplify_eq.
  split; [lia | done].
Qed.

Lemma chain_init (u : uninit) (n k m : nat) :
  Z.of_nat n < uint16_mod →
  (k + m = n)%nat →
  chain (init_slot u <$> seq 0 n) (Z.of_nat n) (Z.of_nat k)
        (Z.of_nat <$> seq k m).
Proof.
  intros Hlt Hn. revert k Hn. induction m as [|m IH]; intros k Hn; csimpl.
  - f_equal. lia.
  - split; [done|]. exists (init_slot u k). split.
    + apply read_Ok. split; [lia|]. rewrite Nat2Z.id, list_lookup_fmap.
      rewrite lookup_seq_lt by lia. done.
    + simpl. rewrite Z.mod_small by lia.
      replace (Z.of_nat k + 1) with (Z.of_nat (S k)) by lia.
      apply IH. lia.
Qed.

Lemma freelist_new_wf (C : Z) (u : uninit) (fl : freelist_t T) :
  0 ≤ C → freelist_new C u = Ok fl → wf C (fl, []).
Proof.
  intros HC H. unfold freelist_new in H.
  apply assert_Ok in H as [Hlt%bool_decide_eq_true H]. simplify_eq.
  assert (Hn : Z.of_nat (Z.to_nat C) = C) by lia.
  split; simpl.
  - lia.
  - done.
  - by rewrite length_fmap, length_seq.
  - by rewrite length_fmap, length_seq.
  - by rewrite length_replicate.
  - done.
  - intros i s [Hi ->]%read_init_slot. simpl.
    unfold uint32_mod. rewrite Z2Nat.id by lia.
    rewrite Z.mod_small by lia. split; [lia|].
    rewrite slot_of_mod. apply Z.mod_small. unfold uint16_mod. lia.
  - intros h v Hin. by apply not_elem_of_nil in Hin.
  - lia.
  - constructor.
  - exists (Z.of_nat <$> seq 0 (Z.to_nat C)). split_and!.
    + pose proof (chain_init u (Z.to_nat C) 0 (Z.to_nat C)) as Hc.
      rewrite Hn in Hc. apply Hc; [|done]. unfold uint16_mod. lia.
    + apply NoDup_fmap_2; [apply _ | apply NoDup_seq].
    + rewrite length_fmap, length_seq. lia.
    + intros i Hi. split.
      * intros (h & v & Hin & _). by apply not_elem_of_nil in Hin.
      * intros s [_ ->]%read_init_slot. right. simpl.
        apply list_elem_of_fmap in Hi as (k & -> & Hk).
        rewrite Nat2Z.id. apply Z.mod_small. apply elem_of_seq in Hk.
        unfold uint32_mod. lia.
    + intros i Hi. left. apply list_elem_of_fmap. exists (Z.to_nat i).
      split; [lia|]. apply elem_of_seq. lia.
Qed.

End Construction.

(** ** Insertion keeps the invariant *)

Section Insertion.
Context {T : Type}.
Implicit Types (fl : freelist_t T) (live : list (Z * T)) (h p i : Z) (v : T).

Lemma insert_alloc_eval fl (s : index_t) :
  0 ≤ _num_objects fl < uint16_mod - 1 →
  _num_objects fl ≤ _max_objects fl →
  read (_indices fl) (_enqueue fl) = Ok s →
  _num_objects fl < len (_object_ids fl) →
  insert_alloc fl =
    Ok (_enqueue fl,
        {| _num_objects := _num_objects fl + 1;
           _max_objects := _max_objects fl;
           _cap_objects := _cap_objects fl;
           _objects := _objects fl;
           _object_ids := <[Z.to_nat (_num_objects fl) := bump s]> (_object_ids fl);
           _indices := <[Z.to_nat (_enqueue fl) :=
                    {| id := bump s; index := _num_objects fl; next := next s |}]>
                   (_indices fl);
           _enqueue := next s |}).
Proof.
  intros Hn Hle Hs Hids. unfold insert_alloc, assert, uint16_mod in *.
  pose proof (read_range _ _ _ Hs) as He.
  rewrite bool_decide_true by done. rewrite Hs. simpl.
  rewrite (write_in_range (_indices fl)) by done. simpl.
  rewrite (Z.mod_small (_num_objects fl)) by lia.
  rewrite write_in_range by lia. simpl.
  rewrite Z.mod_small by (unfold size_mod; lia). done.
Qed.

Lemma emplace_eval fl (s : index_t) v :
  0 ≤ _num_objects fl < uint16_mod - 1 →
  _num_objects fl ≤ _max_objects fl →
  read (_indices fl) (_enqueue fl) = Ok s →
  _num_objects fl < len (_object_ids fl) →
  _num_objects fl < len (_objects fl) →
  emplace fl v = Ok (bump s, placed fl s v).
Proof.
  intros Hn Hle Hs Hids Hobjs. unfold emplace.
  rewrite (insert_alloc_eval fl s) by done. simpl.
  pose proof (read_range _ _ _ Hs) as He.
  rewrite read_insert_eq by done. simpl. unfold construct_at. simpl.
  rewrite write_in_range by lia. simpl.
  rewrite read_insert_eq by done. done.
Qed.

Lemma insert_eval (T_id : T → Z) fl (s : index_t) v :
  0 ≤ _num_objects fl < uint16_mod - 1 →
  _num_objects fl ≤ _max_objects fl →
  read (_indices fl) (_enqueue fl) = Ok s →
  _num_objects fl < len (_object_ids fl) →
  _num_objects fl < len (_objects fl) →
  insert T_id fl v = Ok (T_id v, placed fl s v).
Proof.
  intros Hn Hle Hs Hids Hobjs. unfold insert.
  rewrite (insert_alloc_eval fl s) by done. simpl.
  pose proof (read_range _ _ _ Hs) as He.
  rewrite read_insert_eq by done. simpl. unfold construct_at. simpl.
  rewrite write_in_range by lia. simpl.
  rewrite read_insert_eq by lia. done.
Qed.

Lemma owns_placed_old fl (s : index_t) v h' v' p :
  read (_indices fl) (_enqueue fl) = Ok s →
  0 ≤ _num_objects fl →
  slot_of h' ≠ _enqueue fl →
  p < _num_objects fl →
  owns fl h' v' p → owns (placed fl s v) h' v' p.
Proof.
  intros Hs Hn Hne Hp (s' & Hs' & Hid & Hix & Hh & Hv).
  pose proof (read_range _ _ _ Hs) as He.
  exists s'. simpl. rewrite !read_insert_ne by lia. done.
Qed.

Lemma wf_placed C fl live v :
  wf C (fl, live) → _num_objects fl < _max_objects fl →
  ∃ s, read (_indices fl) (_enqueue fl) = Ok s ∧
       slot_of (bump s) = _enqueue fl ∧
       wf C (placed fl s v, (bump s, v) :: live).
Proof.
  intros [Hcap Hmax Hinds Hids Hobjs Hnum Hslots Hlive Hdense Hnd Hfree] Hlt.
  simpl in *.
  destruct Hfree as (fr & Hch & Hndf & Hlen & Hfr & Hcov).
  destruct fr as [|e fr]; [simpl in Hlen; lia|].
  destruct Hch as [-> (s & Hs & Hch)].
  pose proof (read_range _ _ _ Hs) as He.
  apply NoDup_cons in Hndf as [Hefr Hndf].
  destruct (Hslots _ _ Hs) as [Hid Hslot].
  assert (Hb : slot_of (bump s) = _enqueue fl).
  { unfold bump. by rewrite slot_of_bump. }
  assert (Hfree_e : ¬ occupied live (_enqueue fl)).
  { apply Hfr. left. }
  assert (Hold : ∀ h' v' p, (h', v') ∈ live → p < _num_objects fl →
            owns fl h' v' p → owns (placed fl s v) h' v' p).
  { intros h' v' p Hin Hp Ho. apply owns_placed_old; [done | lia | | done | done].
    intros E. apply Hfree_e. by exists h', v'. }
  exists s. split; [done|]. split; [done|].
  split; simpl.
  - done.
  - done.
  - by rewrite length_insert.
  - by rewrite length_insert.
  - by rewrite length_insert.
  - rewrite Hnum. lia.
  - intros i s' Hs'. destruct (decide (i = _enqueue fl)) as [->|Hne].
    + rewrite read_insert_eq in Hs' by done. simplify_eq. simpl.
      split; [|done]. unfold bump. apply Z.mod_pos_bound. done.
    + rewrite read_insert_ne in Hs' by lia. by apply Hslots.
  - intros h' v' [E|Hin]%elem_of_cons.
    + simplify_eq. exists (_num_objects fl). split; [lia|].
      eexists. simpl. rewrite Hb.
      rewrite !read_insert_eq by lia. done.
    + destruct (Hlive _ _ Hin) as (p & Hp & Ho). exists p. split; [lia|].
      apply Hold; [done | lia | done].
  - intros p Hp. destruct (decide (p = _num_objects fl)) as [->|Hne].
    + exists (bump s), v. split; [left|].
      eexists. simpl. rewrite Hb.
      rewrite !read_insert_eq by lia. done.
    + destruct (Hdense p) as (h' & v' & Hin & Ho); [lia|].
      exists h', v'. split; [by right|]. apply Hold; [done | lia | done].
  - apply NoDup_cons. split; [|done].
    intros ((h' & v') & E & Hin)%list_elem_of_fmap. simpl in E. subst h'.
    apply Hfree_e. by exists (bump s), v'.
  - exists fr. split_and!.
    + eapply chain_ext; [|done]. intros i Hi. simpl.
      apply read_insert_ne; [lia|]. by intros <-.
    + done.
    + simpl in Hlen. lia.
    + intros i Hi. destruct (Hfr i) as [Hocc Hst]; [by right|]. split.
      * intros (h' & v' & [E|Hin]%elem_of_cons & Hsl).
        -- injection E as -> ->. rewrite Hb in Hsl. by subst i.
        -- apply Hocc. by exists h', v'.
      * intros s'. rewrite read_insert_ne; [apply Hst | lia |].
        by intros <-.
    + intros i Hi. destruct (Hcov i Hi) as [[->|Hin]%elem_of_cons|Hocc].
      * right. exists (bump s), v. split; [left | done].
      * by left.
      * right. destruct Hocc as (h' & v' & Hin & Hsl).
        exists h', v'. split; [by right | done].
Qed.

End Insertion.

(** ** Removal keeps the invariant *)

Section Removal.
Context {T : Type}.
Implicit Types (fl : freelist_t T) (live : list (Z * T)) (h p i : Z) (v : T).

(** The three assignments to the slot table at the end of [erase]. *)
Lemma erase_indices {B} (a : list index_t) (i j p e : Z) (s sl : index_t)
    (k : list index_t → result B) :
  read a i = Ok s → read a j = Ok sl →
  ∃ a3,
    (a1 ← update (set_index p) a j;
     a2 ← update (set_index tombstone) a1 i;
     a3 ← update (set_next e) a2 i;
     k a3) = k a3 ∧
    length a3 = length a ∧
    read a3 i = Ok {| id := id s; index := tombstone; next := e |} ∧
    (j ≠ i → read a3 j = Ok (set_index p sl)) ∧
    (∀ x, x ≠ i → x ≠ j → read a3 x = read a x).
Proof.
  intros Hs Hsl.
  pose proof (read_range _ _ _ Hs) as Hi.
  pose proof (read_range _ _ _ Hsl) as Hj.
  destruct (update_in_range (set_index p) a j Hj) as [a1 H1].
  destruct (update_Ok _ _ _ _ H1) as (s1 & Hr1 & Hw1 & Ho1 & Hl1).
  assert (Hi1 : 0 ≤ i < len a1) by lia.
  destruct (update_in_range (set_index tombstone) a1 i Hi1) as [a2 H2].
  destruct (update_Ok _ _ _ _ H2) as (s2 & Hr2 & Hw2 & Ho2 & Hl2).
  assert (Hi2 : 0 ≤ i < len a2) by lia.
  destruct (update_in_range (set_next e) a2 i Hi2) as [a3 H3].
  destruct (update_Ok _ _ _ _ H3) as (s3 & Hr3 & Hw3 & Ho3 & Hl3).
  exists a3. rewrite H1. simpl. rewrite H2. simpl. rewrite H3. simpl.
  split; [done|]. split; [congruence|].
  assert (Hs2 : id s2 = id s).
  { destruct (decide (i = j)) as [->|Hne].
    - rewrite Hw1 in Hr2. simplify_eq. simpl. congruence.
    - rewrite Ho1 in Hr2 by done. congruence. }
  split_and!.
  - rewrite Hw3. rewrite Hw2 in Hr3. simplify_eq.
    unfold set_next, set_index. simpl. by rewrite Hs2.
  - intros Hne. rewrite Ho3, Ho2, Hw1 by done. congruence.
  - intros x Hxi Hxj. rewrite Ho3, Ho2, Ho1 by done. done.
Qed.

Lemma erase_spec C fl live h v p :
  wf C (fl, live) → (h, v) ∈ live → owns fl h v p →
  ∃ fl' hl vl,
    erase fl h = Ok fl' ∧
    _num_objects fl' = _num_objects fl - 1 ∧
    _enqueue fl' = slot_of h ∧
    read (_indices fl') (slot_of h) =
      Ok {| id := h; index := tombstone; next := _enqueue fl |} ∧
    (hl, vl) ∈ live ∧
    (∀ x, x ≠ slot_of h → x ≠ slot_of hl →
          read (_indices fl') x = read (_indices fl) x) ∧
    (∀ x sx, read (_indices fl) x = Ok sx →
          ∃ sx', read (_indices fl') x = Ok sx' ∧ id sx' = id sx) ∧
    wf C (fl', forget h live).
Proof.
  intros Hwf Hin Hown.
  pose proof Hwf as
    [Hcap Hmax Hinds Hids Hobjs Hnum Hslots Hlive Hdense Hnd Hfree].
  simpl in *.
  assert (Hle : _num_objects fl ≤ C).
  { destruct Hfree as (fr & _ & _ & Hl & _). lia. }
  destruct (Hlive _ _ Hin) as (p' & Hp & Hown').
  assert (p' = p) as -> by eauto using owns_position.
  clear Hown'.
  set (n := _num_objects fl - 1).
  destruct (Hdense n) as (hl & vl & Hinl & Hownl); [lia|].
  pose proof Hown as (s & Hs & Hsid & Hsix & Hsh & Hsv).
  pose proof Hownl as (sl & Hsl & Hslid & Hslix & Hslh & Hslv).
  set (ids' := <[Z.to_nat p := hl]> (_object_ids fl)).
  set (objs' := <[Z.to_nat n := None]>
                  (<[Z.to_nat p := Some vl]> (_objects fl))).
  assert (Hmid : read ids' p = Ok hl).
  { apply read_insert_eq. lia. }
  destruct (erase_indices (_indices fl) (slot_of h) (slot_of hl) p
              (_enqueue fl) s sl
              (λ a3, Ok {| _num_objects := n;
                           _max_objects := _max_objects fl;
                           _cap_objects := _cap_objects fl;
                           _objects := objs';
                           _object_ids := ids';
                           _indices := a3;
                           _enqueue := slot_of h |}) Hs Hsl)
    as (a3 & Hev & Hlen3 & Hri & Hrj & Hro).
  set (fl' := {| _num_objects := n; _max_objects := _max_objects fl;
                 _cap_objects := _cap_objects fl; _objects := objs';
                 _object_ids := ids'; _indices := a3;
                 _enqueue := slot_of h |}) in *.
  assert (Herase : erase fl h = Ok fl').
  { unfold erase, contains. fold (slot_of h). rewrite Hs. simpl.
    rewrite (bool_decide_true (id s = h)) by done.
    rewrite (bool_decide_false (index s = tombstone))
      by (unfold tombstone; lia).
    simpl. fold n. rewrite Z.mod_small by (unfold size_mod; lia).
    rewrite Hslv. simpl.
    rewrite Hsix.
    rewrite (write_in_range (_objects fl)) by lia. simpl.
    rewrite Hslh. simpl.
    rewrite (write_in_range (_object_ids fl)) by lia. simpl.
    rewrite write_in_range by (rewrite length_insert; lia). simpl.
    fold ids'. rewrite Hmid. simpl. fold (slot_of hl). fold objs'.
    exact Hev. }
  (* which slots and positions keep their content *)
  assert (Hidp : ∀ x sx, read (_indices fl) x = Ok sx →
            ∃ sx', read a3 x = Ok sx' ∧ id sx' = id sx).
  { intros x sx Hx. destruct (decide (x = slot_of h)) as [->|Hxi].
    - eexists. split; [exact Hri|]. simpl. congruence.
    - destruct (decide (x = slot_of hl)) as [->|Hxj].
      + eexists. split; [by apply Hrj|]. simpl. congruence.
      + exists sx. by rewrite Hro. }
  assert (Hkeep : ∀ h1 v1 q, (h1, v1) ∈ live → h1 ≠ h → h1 ≠ hl →
            owns fl h1 v1 q → 0 ≤ q < n ∧ owns fl' h1 v1 q).
  { intros h1 v1 q Hin1 Hne Hnel Ho1.
    destruct (Hlive _ _ Hin1) as (q' & Hq & Ho1').
    assert (q' = q) as -> by eauto using owns_position.
    assert (q ≠ n).
    { intros ->. destruct (owns_handle _ _ _ _ _ _ Ho1 Hownl). done. }
    assert (q ≠ p).
    { intros ->. destruct (owns_handle _ _ _ _ _ _ Ho1 Hown). done. }
    assert (slot_of h1 ≠ slot_of h) by eauto using owns_slot.
    assert (slot_of h1 ≠ slot_of hl) by eauto using owns_slot.
    split; [lia|].
    destruct Ho1 as (s1 & Hs1 & Hid1 & Hix1 & Hh1 & Hv1).
    exists s1. simpl. rewrite Hro by done. unfold ids', objs'.
    rewrite !read_insert_ne by lia. done. }
  assert (Hmoved : hl ≠ h → 0 ≤ p < n ∧ owns fl' hl vl p).
  { intros Hne.
    assert (p ≠ n).
    { intros ->. destruct (owns_handle _ _ _ _ _ _ Hown Hownl). done. }
    assert (slot_of hl ≠ slot_of h) by eauto using owns_slot.
    split; [lia|]. exists (set_index p sl). simpl.
    rewrite Hrj by done. unfold objs'.
    rewrite read_insert_ne, read_insert_eq by lia. done. }
  exists fl', hl, vl.
  split; [done|]. split; [done|]. split; [done|].
  split; [simpl; rewrite Hri; by rewrite Hsid|].
  split; [done|]. split; [exact Hro|]. split; [exact Hidp|].
  split; simpl.
  - done.
  - done.
  - lia.
  - unfold ids'. by rewrite length_insert.
  - unfold objs'. by rewrite !length_insert.
  - rewrite forget_length; [lia | done |].
    apply list_elem_of_fmap. by exists (h, v).
  - intros x sx Hx.
    destruct (read_in_range (_indices fl) x) as [sx0 Hx0].
    { apply read_range in Hx. lia. }
    destruct (Hidp _ _ Hx0) as (sx' & Hx' & Hid').
    rewrite Hx in Hx'. simplify_eq. rewrite Hid'. by apply Hslots.
  - intros h1 v1 [Hin1 Hne]%forget_elem_of.
    destruct (Hlive _ _ Hin1) as (q & Hq & Ho1).
    destruct (decide (h1 = hl)) as [->|Hnel].
    + assert (q = n) as -> by eauto using owns_position.
      destruct (owns_handle _ _ _ _ _ _ Ho1 Hownl) as [_ ->].
      exists p. by apply Hmoved.
    + exists q. by eapply Hkeep.
  - intros q Hq. destruct (decide (q = p)) as [->|Hqp].
    + assert (hl ≠ h).
      { intros ->. assert (p = n) by eauto using owns_position. lia. }
      exists hl, vl. split; [by apply forget_elem_of|]. by apply Hmoved.
    + destruct (Hdense q) as (h1 & v1 & Hin1 & Ho1); [lia|].
      assert (h1 ≠ h).
      { intros ->. apply Hqp. eauto using owns_position. }
      assert (h1 ≠ hl).
      { intros ->. assert (q = n) by eauto using owns_position. lia. }
      exists h1, v1. split; [by apply forget_elem_of|]. by eapply Hkeep.
  - by apply forget_nodup.
  - destruct Hfree as (fr & Hch & Hndf & Hlenf & Hfr & Hcov).
    assert (Hnotfr : ∀ x, x ∈ fr → x ≠ slot_of h ∧ x ≠ slot_of hl).
    { intros x Hx. destruct (Hfr x Hx) as [Hocc _].
      split; intros ->; apply Hocc; [by exists h, v | by exists hl, vl]. }
    exists (slot_of h :: fr). split_and!.
    + split; [done|]. eexists. split; [exact Hri|]. simpl.
      eapply chain_ext; [|done]. intros x Hx.
      destruct (Hnotfr x Hx). by apply Hro.
    + apply NoDup_cons. split; [|done]. intros Hx.
      by destruct (Hnotfr _ Hx).
    + simpl length. lia.
    + intros x [->|Hx]%elem_of_cons.
      * split.
        -- intros (h1 & v1 & [Hin1 Hne]%forget_elem_of & Hsl1).
           destruct (Hlive _ _ Hin1) as (q & _ & Ho1).
           apply Hne. eauto using owns_slot.
        -- intros sx Hsx. rewrite Hri in Hsx. simplify_eq. by left.
      * destruct (Hfr x Hx) as [Hocc Hst]. split.
        -- intros (h1 & v1 & [Hin1 _]%forget_elem_of & Hsl1).
           apply Hocc. by exists h1, v1.
        -- intros sx. destruct (Hnotfr x Hx). rewrite Hro by done.
           apply Hst.
    + intros x Hx. destruct (Hcov x Hx) as [Hx'|(h1 & v1 & Hin1 & Hsl1)].
      * left. by right.
      * destruct (decide (h1 = h)) as [->|Hne].
        -- left. subst x. left.
        -- right. exists h1, v1. split; [by apply forget_elem_of | done].
Qed.

End Removal.

(** ** Reachable states *)

Section Reachable.
Context {T : Type}.
Variable T_id : T → Z.
Implicit Types (fl : freelist_t T) (live : list (Z * T)) (h p i : Z) (v : T).
Implicit Types (s : tracked T) (o : op T) (ops : list (op T)).

Lemma wf_num_le C s : wf C s → 0 ≤ _num_objects s.1 ≤ C.
Proof.
  intros Hwf. destruct (wf_free _ _ Hwf) as (fr & _ & _ & Hl & _).
  rewrite (wf_num _ _ Hwf) in *. lia.
Qed.

Lemma owns_contains C s h v p :
  wf C s → 0 ≤ p < _num_objects s.1 → owns s.1 h v p →
  contains s.1 h = Ok true ∧ subscript s.1 h = Ok v.
Proof.
  intros Hwf Hp (sl & Hsl & Hid & Hix & Hh & Hv).
  pose proof (wf_num_le _ _ Hwf) as Hle.
  pose proof (wf_capacity _ _ Hwf) as Hcap.
  unfold contains, subscript. fold (slot_of h). rewrite Hsl. simpl.
  rewrite Hix, Hv. simpl. split; [|done].
  rewrite bool_decide_true by done.
  rewrite bool_decide_false by (unfold tombstone; lia). done.
Qed.

Lemma live_contains C s h v :
  wf C s → (h, v) ∈ s.2 →
  contains s.1 h = Ok true ∧ subscript s.1 h = Ok v.
Proof.
  intros Hwf Hin. destruct (wf_live _ _ Hwf _ _ Hin) as (p & Hp & Ho).
  by eapply owns_contains.
Qed.

(** An insertion within capacity, through either entry point. *)
Lemma insertion_spec C s v :
  wf C s → _num_objects s.1 < _max_objects s.1 →
  ∃ sl, read (_indices s.1) (_enqueue s.1) = Ok sl ∧
        slot_of (bump sl) = _enqueue s.1 ∧
        emplace s.1 v = Ok (bump sl, placed s.1 sl v) ∧
        insert T_id s.1 v = Ok (T_id v, placed s.1 sl v) ∧
        step T_id s (Emplace v) = Ok (placed s.1 sl v, (bump sl, v) :: s.2) ∧
        step T_id s (Insert v) = Ok (placed s.1 sl v, (bump sl, v) :: s.2) ∧
        wf C (placed s.1 sl v, (bump sl, v) :: s.2).
Proof.
  destruct s as [fl live]. intros Hwf Hlt. simpl in *.
  destruct (wf_placed C fl live v Hwf Hlt) as (sl & Hsl & Hb & Hwf').
  pose proof (wf_num_le _ _ Hwf) as Hle. simpl in Hle.
  pose proof (wf_capacity _ _ Hwf) as Hcap.
  pose proof (wf_max _ _ Hwf) as Hmax.
  pose proof (wf_object_ids _ _ Hwf) as Hids.
  pose proof (wf_objects _ _ Hwf) as Hobjs. simpl in *.
  assert (He : emplace fl v = Ok (bump sl, placed fl sl v)).
  { apply emplace_eval; unfold uint16_mod; try done; lia. }
  assert (Hi : insert T_id fl v = Ok (T_id v, placed fl sl v)).
  { apply insert_eval; unfold uint16_mod; try done; lia. }
  exists sl. split_and!; try done.
  - unfold step. simpl. rewrite He. done.
  - unfold step. simpl. rewrite Hi. simpl.
    rewrite read_insert_eq by lia. done.
Qed.

Lemma step_wf C s o :
  wf C s → permitted s o = true → ∃ s', step T_id s o = Ok s' ∧ wf C s'.
Proof.
  intros Hwf Hp. destruct o as [v|v|h]; simpl in Hp.
  - apply bool_decide_eq_true in Hp.
    destruct (insertion_spec C s v Hwf Hp) as (sl & _ & _ & _ & _ & _ & H & ?).
    eauto.
  - apply bool_decide_eq_true in Hp.
    destruct (insertion_spec C s v Hwf Hp) as (sl & _ & _ & _ & _ & H & _ & ?).
    eauto.
  - apply bool_decide_eq_true in Hp.
    apply list_elem_of_fmap in Hp as ((h' & v) & E & Hin). simpl in E. subst h'.
    destruct s as [fl live]. simpl in *.
    destruct (wf_live _ _ Hwf _ _ Hin) as (p & _ & Ho).
    destruct (erase_spec C fl live h v p Hwf Hin Ho)
      as (fl' & hl & vl & He & _ & _ & _ & _ & _ & _ & Hwf').
    exists (fl', forget h live). unfold step. simpl. rewrite He. done.
Qed.

Lemma within_contract_cons s o ops :
  within_contract T_id s (o :: ops) = true →
  permitted s o = true ∧
  ∃ s', step T_id s o = Ok s' ∧ within_contract T_id s' ops = true.
Proof.
  simpl. intros [Hp H]%andb_true_iff. split; [done|].
  destruct (step T_id s o) as [s'| |]; [eauto | done | done].
Qed.

Lemma run_wf C s ops :
  wf C s → within_contract T_id s ops = true →
  ∃ s', run T_id s ops = Ok s' ∧ wf C s'.
Proof.
  revert s. induction ops as [|o ops IH]; intros s Hwf Hc.
  - exists s. done.
  - apply within_contract_cons in Hc as (Hp & s' & Hs & Hc).
    destruct (step_wf C s o Hwf Hp) as (s'' & Hs' & Hwf').
    rewrite Hs in Hs'. simplify_eq. simpl. rewrite Hs. simpl. by apply IH.
Qed.

Lemma reachable_wf C u s : reachable T_id C u s → wf C s.
Proof.
  intros (fl0 & ops & HC & Hnew & Hc & Hrun).
  apply freelist_new_wf in Hnew; [|done].
  destruct (run_wf C _ ops Hnew Hc) as (s' & Hrun' & Hwf).
  congruence.
Qed.

(** *** Iteration *)

Lemma range_for_take fl (n k fuel : nat) :
  (n ≤ length (_object_ids fl))%nat → (k ≤ n)%nat → (n - k ≤ fuel)%nat →
  range_for fuel fl {| _curr_object_id := Z.of_nat k |}
                    {| _curr_object_id := Z.of_nat n |} =
    Some (Ok (drop k (take n (_object_ids fl)))).
Proof.
  intros Hn. revert k. induction fuel as [|fuel IH]; intros k Hk Hf.
  - assert (k = n) as -> by lia. simpl. unfold iterator_neq. simpl.
    rewrite bool_decide_true by done. simpl.
    rewrite drop_ge by (rewrite length_take; lia). done.
  - simpl. unfold iterator_neq. simpl. case_bool_decide as Hkn; simpl.
    + assert (k = n) as -> by lia.
      rewrite drop_ge by (rewrite length_take; lia). done.
    + assert (Hlt : (k < n)%nat) by lia.
      unfold iterator_deref. simpl.
      destruct (lookup_lt_is_Some_2 (_object_ids fl) k) as [h Hh]; [lia|].
      assert (Hr : read (_object_ids fl) (Z.of_nat k) = Ok h).
      { apply read_Ok. split; [lia|]. by rewrite Nat2Z.id. }
      rewrite Hr. unfold iterator_incr. simpl.
      replace (Z.of_nat k + 1) with (Z.of_nat (S k)) by lia.
      rewrite IH by lia.
      rewrite (drop_S _ h k); [done|].
      rewrite lookup_take_lt by lia. done.
Qed.

End Reachable.

(** ** Generations of a slot *)

Section Generations.
Context {T : Type}.
Variable T_id : T → Z.
Implicit Types (fl : freelist_t T) (live : list (Z * T)) (h p i k : Z) (v : T).
Implicit Types (s : tracked T) (o : op T) (ops : list (op T)).

Lemma insertions_cons o ops :
  insertions (o :: ops) = (if is_insertion o then 1 else 0) + insertions ops.
Proof.
  unfold insertions. rewrite filter_cons.
  destruct (is_insertion o); simpl; lia.
Qed.

Lemma insertions_nonneg ops : 0 ≤ insertions ops.
Proof. unfold insertions. lia. Qed.

Lemma bump_reused (sl : index_t) h k :
  id sl = (h + k * new_object_id_add) mod uint32_mod →
  bump sl = (h + (k + 1) * new_object_id_add) mod uint32_mod.
Proof.
  intros E. unfold bump. rewrite E. rewrite Zplus_mod_idemp_l.
  f_equal. lia.
Qed.

Lemma handed_out_unfold i s o ops :
  handed_out T_id i s (o :: ops) =
    (if is_insertion o && bool_decide (_enqueue s.1 = i) then 1 else 0) +
    match step T_id s o with
    | Ok s' => handed_out T_id i s' ops
    | _ => 0
    end.
Proof. reflexivity. Qed.

Lemma handed_out_nonneg i s ops : 0 ≤ handed_out T_id i s ops.
Proof.
  revert s. induction ops as [|o ops IH]; intros s; [done|].
  rewrite handed_out_unfold.
  assert (0 ≤ match step T_id s o with
              | Ok s' => handed_out T_id i s' ops
              | _ => 0
              end) by (destruct (step T_id s o); [apply IH | done | done]).
  destruct (is_insertion o && bool_decide (_enqueue s.1 = i)); lia.
Qed.

(** The insertions that take one slot are among the insertions. *)
Lemma handed_out_le_insertions i s ops :
  handed_out T_id i s ops ≤ insertions ops.
Proof.
  revert s. induction ops as [|o ops IH]; intros s; [done|].
  rewrite handed_out_unfold, insertions_cons.
  pose proof (insertions_nonneg ops).
  assert (match step T_id s o with
          | Ok s' => handed_out T_id i s' ops
          | _ => 0
          end ≤ insertions ops)
    by (destruct (step T_id s o); [apply IH | done | done]).
  destruct (is_insertion o); simpl; [|lia].
  destruct (bool_decide (_enqueue s.1 = i)); lia.
Qed.

(** One operation hands the slot of [h] out again exactly when it is an
    insertion and that slot is the head of the free list. *)
Lemma reused_step C s o s' h k :
  wf C s → 0 ≤ k → reused s.1 h k →
  permitted s o = true → step T_id s o = Ok s' →
  reused s'.1 h
    (k + (if is_insertion o && bool_decide (_enqueue s.1 = slot_of h)
          then 1 else 0)).
Proof.
  intros Hwf Hk (sl & Hsl & Hid & Hix) Hp Hs.
  destruct o as [v|v|h']; simpl in Hp; apply bool_decide_eq_true in Hp.
  - destruct (insertion_spec T_id C s v Hwf Hp)
      as (sl0 & Hsl0 & _ & _ & _ & _ & Hst & _).
    rewrite Hst in Hs. simplify_eq. simpl.
    destruct (decide (_enqueue s.1 = slot_of h)) as [He|He].
    + rewrite bool_decide_true by done. eexists. rewrite <- He. simpl.
      rewrite read_insert_eq by (by eapply read_range).
      split; [done|]. simpl. rewrite <- He in Hsl.
      assert (sl0 = sl) as -> by congruence.
      split; [by apply bump_reused | lia].
    + rewrite bool_decide_false by done. rewrite Z.add_0_r. exists sl. simpl.
      rewrite read_insert_ne; [done | | done].
      apply read_range in Hsl0. lia.
  - destruct (insertion_spec T_id C s v Hwf Hp)
      as (sl0 & Hsl0 & _ & _ & _ & Hst & _ & _).
    rewrite Hst in Hs. simplify_eq. simpl.
    destruct (decide (_enqueue s.1 = slot_of h)) as [He|He].
    + rewrite bool_decide_true by done. eexists. rewrite <- He. simpl.
      rewrite read_insert_eq by (by eapply read_range).
      split; [done|]. simpl. rewrite <- He in Hsl.
      assert (sl0 = sl) as -> by congruence.
      split; [by apply bump_reused | lia].
    + rewrite bool_decide_false by done. rewrite Z.add_0_r. exists sl. simpl.
      rewrite read_insert_ne; [done | | done].
      apply read_range in Hsl0. lia.
  - apply list_elem_of_fmap in Hp as ((h'' & v) & E & Hin).
    simpl in E. subst h''. destruct s as [fl live]. simpl in *.
    destruct (wf_live _ _ Hwf _ _ Hin) as (p & Hpn & Ho). simpl in *.
    destruct (erase_spec C fl live h' v p Hwf Hin Ho)
      as (fl' & hl & vl & He & _ & _ & _ & Hinl & Hro & Hidp & _).
    unfold step in Hs. simpl in Hs. rewrite He in Hs. simpl in Hs.
    simplify_eq. simpl. rewrite Z.add_0_r.
    destruct (decide (k = 0)) as [->|Hk0].
    + assert (Hfree : ∀ h1 v1, (h1, v1) ∈ live → slot_of h ≠ slot_of h1).
      { intros h1 v1 Hin1 E.
        destruct (wf_live _ _ Hwf _ _ Hin1) as (q & Hq & s1 & Hs1 & _ & Hix1 & _).
        simpl in *. rewrite <- E in Hs1.
        assert (s1 = sl) as -> by congruence.
        specialize (Hix eq_refl).
        pose proof (wf_num_le _ _ Hwf) as Hle.
        pose proof (wf_capacity _ _ Hwf). simpl in *.
        unfold tombstone in Hix. lia. }
      exists sl. rewrite Hro by eauto. done.
    + destruct (Hidp _ _ Hsl) as (sx' & Hsx' & Hid').
      exists sx'. split; [done|]. split; [congruence | done].
Qed.

Lemma reused_run C s ops s' h k :
  wf C s → 0 ≤ k → reused s.1 h k →
  within_contract T_id s ops = true → run T_id s ops = Ok s' →
  reused s'.1 h (k + handed_out T_id (slot_of h) s ops).
Proof.
  revert s k. induction ops as [|o ops IH]; intros s k Hwf Hk Hre Hc Hrun.
  - simpl in Hrun. simplify_eq. simpl. by rewrite Z.add_0_r.
  - apply within_contract_cons in Hc as (Hp & s1 & Hs & Hc).
    rewrite handed_out_unfold, Hs.
    simpl in Hrun. rewrite Hs in Hrun. simpl in Hrun.
    destruct (step_wf T_id C s o Hwf Hp) as (s1' & Hs' & Hwf1).
    assert (s1' = s1) as -> by congruence.
    pose proof (reused_step C s o s1 h k Hwf Hk Hre Hp Hs) as Hre1.
    rewrite Z.add_assoc. apply (IH s1); try done.
    destruct (is_insertion o && bool_decide (_enqueue s.1 = slot_of h)); lia.
Qed.

Lemma reused_contains fl h k :
  0 ≤ h < uint32_mod → 0 ≤ k < 0x10000 → reused fl h k →
  contains fl h = Ok false.
Proof.
  intros Hh Hk (sl & Hsl & Hid & Hix). unfold contains. fold (slot_of h).
  rewrite Hsl. simpl. destruct (decide (k = 0)) as [->|Hk0].
  - rewrite (bool_decide_true (index sl = tombstone)) by auto.
    by rewrite andb_false_r.
  - rewrite bool_decide_false; [done|]. rewrite Hid.
    unfold new_object_id_add, uint32_mod in *. intros E.
    pose proof (Z.div_mod (h + k * 65536) 4294967296 ltac:(lia)) as Hd.
    rewrite E in Hd. lia.
Qed.

Lemma run_app s ops1 ops2 :
  run T_id s (ops1 ++ ops2) =
    s' ← run T_id s ops1; run T_id s' ops2.
Proof.
  revert s. induction ops1 as [|o ops1 IH]; intros s; simpl; [done|].
  destruct (step T_id s o) as [s1| |]; simpl; [apply IH | done | done].
Qed.

Lemma within_contract_app s s' ops1 ops2 :
  within_contract T_id s ops1 = true → run T_id s ops1 = Ok s' →
  within_contract T_id s' ops2 = true →
  within_contract T_id s (ops1 ++ ops2) = true.
Proof.
  revert s. induction ops1 as [|o ops1 IH]; intros s H1 Hr H2; simpl in *.
  - by simplify_eq.
  - apply andb_true_iff in H1 as [Hp H1]. rewrite Hp. simpl.
    destruct (step T_id s o) as [s1| |]; [|done|done]. simpl in Hr. eauto.
Qed.

Lemma within_contract_unfold s o ops :
  within_contract T_id s (o :: ops) =
    permitted s o &&
    match step T_id s o with
    | Ok s' => within_contract T_id s' ops
    | _ => false
    end.
Proof. reflexivity. Qed.

Lemma run_unfold s o ops :
  run T_id s (o :: ops) = s' ← step T_id s o; run T_id s' ops.
Proof. reflexivity. Qed.

(** *** Wrap-around of the generation in a pool of one slot *)

Lemma single_slot s :
  wf 1 s → s.2 = [] → _enqueue s.1 = 0 ∧ _num_objects s.1 = 0.
Proof.
  intros Hwf Hl. pose proof (wf_num _ _ Hwf) as Hn. rewrite Hl in Hn.
  simpl in Hn. split; [|done].
  destruct (wf_free _ _ Hwf) as (fr & Hch & _ & Hlen & _).
  destruct fr as [|e fr]; [simpl in Hlen; lia|].
  destruct Hch as [-> (sl & Hsl & _)]. apply read_range in Hsl.
  rewrite (wf_indices _ _ Hwf) in Hsl. lia.
Qed.

Lemma churn_spec v (n : nat) s x :
  wf 1 s → s.2 = [] →
  (∃ sl, read (_indices s.1) 0 = Ok sl ∧ id sl = x) →
  ∃ s', within_contract T_id s
          (churn v ((x + new_object_id_add) mod uint32_mod) n) = true ∧
        run T_id s (churn v ((x + new_object_id_add) mod uint32_mod) n)
          = Ok s' ∧
        wf 1 s' ∧ s'.2 = [] ∧
        ∃ sl', read (_indices s'.1) 0 = Ok sl' ∧
               id sl' = (x + Z.of_nat n * new_object_id_add) mod uint32_mod.
Proof.
  revert s x. induction n as [|n IH]; intros s x Hwf Hl (sl & Hsl & Hid).
  - exists s. simpl. split_and!; try done. exists sl. split; [done|].
    destruct (wf_slots _ _ Hwf _ _ Hsl) as [Hr _].
    rewrite Z.add_0_r, Z.mod_small; [done | by rewrite <- Hid].
  - destruct (single_slot s Hwf Hl) as [He Hn0].
    destruct (insertion_spec T_id 1 s v Hwf) as
      (sl0 & Hsl0 & Hb & _ & _ & Hst & _ & Hwf1).
    { rewrite (wf_max _ _ Hwf). lia. }
    rewrite He in Hsl0. assert (sl0 = sl) as -> by congruence.
    assert (Hbx : bump sl = (x + new_object_id_add) mod uint32_mod).
    { unfold bump. by rewrite Hid. }
    rewrite Hl, Hbx in *.
    set (h := (x + new_object_id_add) mod uint32_mod) in *.
    set (s1 := (placed s.1 sl v, [(h, v)])) in *.
    assert (Hin : (h, v) ∈ s1.2) by left.
    destruct (wf_live _ _ Hwf1 _ _ Hin) as (p & _ & Ho).
    destruct (erase_spec 1 s1.1 s1.2 h v p Hwf1 Hin Ho)
      as (fl2 & _ & _ & Her & _ & _ & Hr2 & _ & _ & _ & Hwf2).
    assert (Hf : forget h s1.2 = []).
    { unfold forget. simpl. rewrite filter_cons. simpl.
      by rewrite decide_False by auto. }
    rewrite Hf in Hwf2. rewrite Hb, He in Hr2.
    destruct (IH (fl2, []) h Hwf2 eq_refl) as (s' & Hc & Hrun & Hwf' & Hl' & Hfin).
    { eexists. split; [exact Hr2 | done]. }
    assert (Hst2 : step T_id s1 (Erase h) = Ok (fl2, [])).
    { unfold step. simpl. simpl in Her. rewrite Her. simpl.
      fold (forget h [(h, v)]). simpl in Hf. by rewrite Hf. }
    exists s'. split_and!; try done.
    + simpl churn. fold h.
      rewrite within_contract_unfold, Hst. cbv beta iota.
      rewrite within_contract_unfold, Hst2. cbv beta iota.
      rewrite Hc, !andb_true_r. unfold permitted.
      rewrite bool_decide_true by (rewrite (wf_max _ _ Hwf); lia).
      rewrite bool_decide_true; [done|]. simpl. left.
    + simpl churn. fold h. rewrite run_unfold, Hst, Ok_bind.
      rewrite run_unfold, Hst2, Ok_bind. done.
    + destruct Hfin as (sl' & Hsl' & Hid'). exists sl'. split; [done|].
      rewrite Hid'. unfold h. rewrite Zplus_mod_idemp_l. f_equal. lia.
Qed.

End Generations.

(** ** Consequences for handles and insertion *)

Section Support.
Context {T : Type}.
Variable T_id : T → Z.
Implicit Types (fl : freelist_t T) (live : list (Z * T)) (h p i k : Z) (v : T).
Implicit Types (s : tracked T) (o : op T) (ops : list (op T)).

Lemma emplace_handle_valid C s v :
  wf C s → _num_objects s.1 < _max_objects s.1 →
  ∃ h fl', emplace s.1 v = Ok (h, fl') ∧
           contains fl' h = Ok true ∧ subscript fl' h = Ok v.
Proof.
  intros Hwf Hlt.
  destruct (insertion_spec T_id C s v Hwf Hlt)
    as (sl & _ & _ & He & _ & _ & _ & Hwf').
  exists (bump sl), (placed s.1 sl v). split; [done|].
  apply (live_contains C (placed s.1 sl v, (bump sl, v) :: s.2)); [done|].
  left.
Qed.

Lemma insert_result C s v :
  wf C s → _num_objects s.1 < _max_objects s.1 →
  ∃ h fl', emplace s.1 v = Ok (h, fl') ∧ insert T_id s.1 v = Ok (T_id v, fl').
Proof.
  intros Hwf Hlt.
  destruct (insertion_spec T_id C s v Hwf Hlt)
    as (sl & _ & _ & He & Hi & _).
  eauto.
Qed.

(** The assertion of [insert_alloc] lets a full pool through. *)
Lemma insert_alloc_full_not_fatal fl :
  _num_objects fl = _max_objects fl → insert_alloc fl ≠ Fatal.
Proof.
  intros E. unfold insert_alloc, assert.
  rewrite bool_decide_true by lia.
  pose proof (read_not_fatal (_indices fl) (_enqueue fl)) as Hr.
  destruct (read (_indices fl) (_enqueue fl)) as [sl| |]; simpl; [|done|done].
  match goal with |- context [write ?a ?j ?x] =>
    pose proof (write_not_fatal a j x) as Hw; destruct (write a j x); simpl;
    [|done|done] end.
  match goal with |- context [write ?a ?j ?x] =>
    pose proof (write_not_fatal a j x) as Hw'; destruct (write a j x); simpl;
    done end.
Qed.

Lemma erase_then_emplace C s h v :
  wf C s → h ∈ s.2.*1 →
  ∃ fl1 fl2,
    erase s.1 h = Ok fl1 ∧
    emplace fl1 v = Ok ((h + new_object_id_add) mod uint32_mod, fl2) ∧
    insert T_id fl1 v = Ok (T_id v, fl2) ∧
    slot_of ((h + new_object_id_add) mod uint32_mod) = slot_of h.
Proof.
  intros Hwf Hin.
  apply list_elem_of_fmap in Hin as ((h' & v0) & E & Hin). simpl in E. subst h'.
  destruct s as [fl live]. simpl in *.
  destruct (wf_live _ _ Hwf _ _ Hin) as (p & Hp & Ho). simpl in *.
  destruct (erase_spec C fl live h v0 p Hwf Hin Ho)
    as (fl1 & _ & _ & He & Hn & Hq & Hr & _ & _ & _ & Hwf1).
  destruct (insertion_spec T_id C (fl1, forget h live) v Hwf1)
    as (sl & Hsl & _ & Hem & Hi & _).
  { pose proof (wf_max _ _ Hwf1) as Hm.
    pose proof (wf_num_le _ _ Hwf) as Hle. simpl in *. lia. }
  simpl in *. rewrite Hq, Hr in Hsl. simplify_eq.
  exists fl1. eexists. split; [done|]. split; [exact Hem|].
  split; [exact Hi|]. apply slot_of_bump.
Qed.

(** An erased handle stays rejected while its slot has been handed out
    again fewer than 65536 times. *)
Lemma erased_handle_rejected_slot C s h s1 ops s2 :
  wf C s → h ∈ s.2.*1 → step T_id s (Erase h) = Ok s1 →
  within_contract T_id s1 ops = true → run T_id s1 ops = Ok s2 →
  handed_out T_id (slot_of h) s1 ops < 0x10000 →
  contains s2.1 h = Ok false ∧ h ∉ s2.2.*1.
Proof.
  intros Hwf Hin Hst Hc Hrun Hlt.
  assert (Hp : permitted s (Erase h) = true) by by apply bool_decide_eq_true.
  destruct (step_wf T_id C s _ Hwf Hp) as (s1' & Hst' & Hwf1).
  assert (s1' = s1) as -> by congruence.
  apply list_elem_of_fmap in Hin as ((h' & v0) & E & Hin). simpl in E. subst h'.
  destruct s as [fl live]. simpl in *.
  destruct (wf_live _ _ Hwf _ _ Hin) as (p & Hpn & Ho). simpl in *.
  destruct (erase_spec C fl live h v0 p Hwf Hin Ho)
    as (fl1 & _ & _ & He & _ & _ & Hr & _ & _ & _ & _).
  unfold step in Hst. simpl in Hst. rewrite He in Hst. simpl in Hst.
  simplify_eq.
  destruct Ho as (sl & Hsl & Hid & _).
  destruct (wf_slots _ _ Hwf _ _ Hsl) as [Hrange _]. simpl in *.
  rewrite Hid in Hrange.
  assert (Hre : reused fl1 h 0).
  { eexists. split; [exact Hr|]. simpl. split; [|done].
    rewrite Z.add_0_r. by rewrite Z.mod_small. }
  pose proof (reused_run T_id C _ ops s2 h 0 Hwf1 ltac:(lia) Hre Hc Hrun) as Hk.
  pose proof (handed_out_nonneg T_id (slot_of h) (fl1, forget h live) ops).
  assert (Hf : contains s2.1 h = Ok false).
  { eapply reused_contains; [done | | exact Hk]. lia. }
  split; [done|].
  intros ((h' & v') & E & Hin')%list_elem_of_fmap. simpl in E. subst h'.
  destruct (run_wf T_id C _ ops Hwf1 Hc) as (s2' & Hrun' & Hwf2).
  assert (s2' = s2) as -> by congruence.
  destruct (live_contains C s2 h v' Hwf2 Hin') as [Ht _]. congruence.
Qed.

Lemma erased_handle_rejected C s h s1 ops s2 :
  wf C s → h ∈ s.2.*1 → step T_id s (Erase h) = Ok s1 →
  within_contract T_id s1 ops = true → run T_id s1 ops = Ok s2 →
  insertions ops < 0x10000 →
  contains s2.1 h = Ok false ∧ h ∉ s2.2.*1.
Proof.
  intros Hwf Hin Hst Hc Hrun Hlt.
  apply (erased_handle_rejected_slot C s h s1 ops s2); try done.
  pose proof (handed_out_le_insertions T_id (slot_of h) s1 ops). lia.
Qed.

(** In a reachable state that is full the free list is empty: [_enqueue]
    is the index one past the slot table, the assertion passes, and the
    first access of [insert_alloc] is out of bounds. *)
Lemma insert_alloc_full_undefined C u s :
  reachable T_id C u s → _num_objects s.1 = _max_objects s.1 →
  _enqueue s.1 = C ∧ insert_alloc s.1 = Undefined.
Proof.
  intros Hwf%reachable_wf Hfull.
  destruct (wf_free _ _ Hwf) as (fr & Hch & _ & Hlen & _).
  rewrite Hfull, (wf_max _ _ Hwf) in Hlen.
  destruct fr as [|e fr]; [|simpl in Hlen; lia]. simpl in Hch.
  split; [done|]. unfold insert_alloc, assert.
  rewrite bool_decide_true by lia.
  rewrite read_out_of_range; [done|].
  rewrite Hch, (wf_indices _ _ Hwf). lia.
Qed.

(** What a positive answer of [contains] means in a reachable state: the
    handle is in the book, or it is the bare index of a free slot that has
    not been used since the constructor and whose [index], never
    initialised, happens not to be the tombstone. *)
Lemma contains_true_cases C u s h :
  reachable T_id C u s → contains s.1 h = Ok true →
  h ∈ s.2.*1 ∨ (0 ≤ h < C ∧ slot_of h = h ∧ ¬ occupied s.2 h).
Proof.
  intros Hwf%reachable_wf Hc. unfold contains in Hc. fold (slot_of h) in Hc.
  apply bind_Ok in Hc as (sl & Hsl & Hb). injection Hb as Hb.
  apply andb_true_iff in Hb as [Hid%bool_decide_eq_true Hix%negb_true_iff].
  apply bool_decide_eq_false in Hix.
  pose proof (read_range _ _ _ Hsl) as Hr.
  rewrite (wf_indices _ _ Hwf) in Hr.
  destruct (wf_free _ _ Hwf) as (fr & _ & _ & _ & Hfr & Hcov).
  destruct (Hcov _ Hr) as [Hin|(h' & v & Hin & Hsl')].
  - right. destruct (Hfr _ Hin) as [Hocc Hst].
    destruct (Hst _ Hsl) as [Ht|Hi]; [done|].
    rewrite Hid in Hi. rewrite <- Hi in *. done.
  - left. destruct (wf_live _ _ Hwf _ _ Hin) as (p & _ & sl' & Hs' & Hid' & _).
    rewrite Hsl' in Hs'. assert (sl' = sl) as -> by congruence.
    apply list_elem_of_fmap. exists (h', v). split; [simpl; congruence | done].
Qed.

End Support.

(** ** Concrete pools *)

(** Membership in a concrete list, by evaluation. *)
Ltac by_eval := compute_done.

Lemma pool_of_new (C : Z) :
  C < 0xFFFF → freelist_new C zeroed = Ok (pool_of C).
Proof.
  intros HC. unfold pool_of, freelist_new, assert.
  rewrite bool_decide_true by done. done.
Qed.

Lemma after_reachable (C : Z) (ops : list (op item)) :
  0 ≤ C < 0xFFFF →
  within_contract item_id (pool_of C, []) ops = true →
  reachable item_id C zeroed (after C ops).
Proof.
  intros HC Hc. exists (pool_of C), ops.
  pose proof (pool_of_new C ltac:(lia)) as Hnew.
  split; [lia|]. split; [done|]. split; [done|].
  destruct (run_wf item_id C (pool_of C, []) ops) as (s & Hs & _); [|done|].
  - apply (freelist_new_wf C zeroed); [lia | done].
  - unfold after. by rewrite Hs.
Qed.

(** * The properties of the specification *)

(** ** For every element type *)

Section Specified.
Context {T : Type}.
Variable T_id : T → Z.
Implicit Types (fl : freelist_t T) (live : list (Z * T)) (h p i k : Z) (v : T).
Implicit Types (s : tracked T) (o : op T) (ops : list (op T)).

(** The invariants of a reachable state, slot by slot. *)
Lemma reachable_invariant C u s :
  reachable T_id C u s →
  0 ≤ _num_objects s.1 ≤ C ∧
  (∀ i, occupied s.2 i →
        ∃ sl, read (_indices s.1) i = Ok sl ∧
              0 ≤ index sl < _num_objects s.1 ∧
              read (_object_ids s.1) (index sl) = Ok (id sl)) ∧
  (∀ i, 0 ≤ i < C → ¬ occupied s.2 i → erased_or_fresh (_indices s.1) i) ∧
  ∃ fr, chain (_indices s.1) C (_enqueue s.1) fr ∧ NoDup fr ∧
        ∀ i, 0 ≤ i < C → (i ∈ fr ↔ ¬ occupied s.2 i).
Proof.
  intros Hwf%reachable_wf. split; [by apply wf_num_le|]. split_and!.
  - intros i (h & v & Hin & <-).
    destruct (wf_live _ _ Hwf _ _ Hin) as (p & Hp & sl & Hsl & Hid & Hix & Hh & _).
    exists sl. rewrite Hix, Hid. done.
  - intros i Hi Hfree.
    destruct (wf_free _ _ Hwf) as (fr & _ & _ & _ & Hfr & Hcov).
    destruct (Hcov i Hi) as [Hin|Hocc]; [|done]. by apply Hfr.
  - destruct (wf_free _ _ Hwf) as (fr & Hch & Hnd & _ & Hfr & Hcov).
    exists fr. split; [done|]. split; [done|]. intros i Hi. split.
    + intros Hin. by apply Hfr.
    + intros Hfree. by destruct (Hcov i Hi).
Qed.

(** X18. Swap-and-pop for the handles of the book: in a reachable state,
    erasing a handle that an insertion gave out and that was not erased
    since, whose dense position is not the last one, succeeds, lowers the
    count by exactly one, and leaves every other such handle valid with
    the value it had. *)
Theorem erase_swap_and_pop C u s h :
  reachable T_id C u s →
  h ∈ s.2.*1 →
  (∀ sl, read (_indices s.1) (slot_of h) = Ok sl →
         index sl ≠ _num_objects s.1 - 1) →
  ∃ fl', erase s.1 h = Ok fl' ∧
         _num_objects fl' = _num_objects s.1 - 1 ∧
         ∀ h' v', (h', v') ∈ s.2 → h' ≠ h →
           subscript s.1 h' = Ok v' ∧
           contains fl' h' = Ok true ∧
           subscript fl' h' = Ok v'.
Proof.
  intros Hwf%reachable_wf Hin _.
  apply list_elem_of_fmap in Hin as ((h0 & v) & E & Hin). simpl in E. subst h0.
  destruct s as [fl live]. simpl in *.
  destruct (wf_live _ _ Hwf _ _ Hin) as (p & Hp & Ho). simpl in *.
  destruct (erase_spec C fl live h v p Hwf Hin Ho)
    as (fl' & _ & _ & He & Hn & _ & _ & _ & _ & _ & Hwf').
  exists fl'. split; [done|]. split; [done|]. intros h' v' Hin' Hne.
  split; [by apply (live_contains C (fl, live))|].
  apply (live_contains C (fl', forget h live)); [done|].
  by apply forget_elem_of.
Qed.

(** X19. In a state reached by insertions and by erasures of handles of
    the book, the iteration from [begin()] to [end()] ends, given as many
    rounds as there are elements, and yields the first [count] entries of
    the handle mirror in their order: [count] handles without duplicates,
    each passing [contains], and exactly the handles that were given out
    and not erased. *)
Theorem iteration_visits_live_handles C u s (fuel : nat) :
  reachable T_id C u s →
  (Z.to_nat (_num_objects s.1) ≤ fuel)%nat →
  ∃ hs, handles fuel s.1 = Some (Ok hs) ∧
        hs = take (Z.to_nat (_num_objects s.1)) (_object_ids s.1) ∧
        len hs = _num_objects s.1 ∧
        NoDup hs ∧
        (∀ h, h ∈ hs → contains s.1 h = Ok true) ∧
        (∀ h, h ∈ hs ↔ h ∈ s.2.*1).
Proof.
  intros Hwf%reachable_wf Hfuel.
  pose proof (wf_num_le _ _ Hwf) as Hle.
  pose proof (wf_object_ids _ _ Hwf) as Hids.
  set (n := Z.to_nat (_num_objects s.1)) in *.
  assert (Hn : Z.of_nat n = _num_objects s.1) by lia.
  assert (Hmem : ∀ h, h ∈ take n (_object_ids s.1) ↔ h ∈ s.2.*1).
  { intros h. rewrite elem_of_take. split.
    - intros (j & Hj & Hlt).
      destruct (wf_dense _ _ Hwf (Z.of_nat j)) as (h' & v & Hin & Ho); [lia|].
      destruct Ho as (_ & _ & _ & _ & [_ Hh]%read_Ok & _).
      rewrite Nat2Z.id in Hh. assert (h' = h) as -> by congruence.
      apply list_elem_of_fmap. by exists (h, v).
    - intros ((h' & v) & -> & Hin)%list_elem_of_fmap. simpl.
      destruct (wf_live _ _ Hwf _ _ Hin) as (p & Hp & _ & _ & _ & _ & [_ Hh]%read_Ok & _).
      exists (Z.to_nat p). split; [done | lia]. }
  exists (take n (_object_ids s.1)). split_and!.
  - unfold handles, begin_, end_. rewrite <- Hn.
    change 0 with (Z.of_nat 0).
    rewrite range_for_take by lia. by rewrite drop_0.
  - done.
  - rewrite length_take. lia.
  - apply NoDup_alt. intros j1 j2 h [Hj1 Hl1]%lookup_take_Some [Hj2 Hl2]%lookup_take_Some.
    destruct (wf_dense _ _ Hwf (Z.of_nat j1)) as (h1 & v1 & _ & Ho1); [lia|].
    destruct (wf_dense _ _ Hwf (Z.of_nat j2)) as (h2 & v2 & _ & Ho2); [lia|].
    assert (h1 = h) as ->.
    { destruct Ho1 as (_ & _ & _ & _ & [_ Hh]%read_Ok & _).
      rewrite Nat2Z.id in Hh. congruence. }
    assert (h2 = h) as ->.
    { destruct Ho2 as (_ & _ & _ & _ & [_ Hh]%read_Ok & _).
      rewrite Nat2Z.id in Hh. congruence. }
    pose proof (owns_position _ _ _ _ _ _ Ho1 Ho2). lia.
  - intros h ((h' & v) & -> & Hin)%Hmem%list_elem_of_fmap. simpl.
    by destruct (live_contains C s h' v Hwf Hin).
  - done.
Qed.

(** C5 (as amended). Once [erase(h)] has run in a reachable state,
    [contains(h)] is false in that state and in every state that further
    operations within the contract lead to, as long as the slot of [h] was
    handed out again fewer than 65536 times, whatever the number of
    insertions into other slots; no element stored meanwhile has the
    handle [h]. *)
Theorem erased_handle_stays_invalid C u s h s1 ops s2 :
  reachable T_id C u s →
  h ∈ s.2.*1 →
  step T_id s (Erase h) = Ok s1 →
  within_contract T_id s1 ops = true →
  run T_id s1 ops = Ok s2 →
  handed_out T_id (slot_of h) s1 ops < 0x10000 →
  contains s1.1 h = Ok false ∧ contains s2.1 h = Ok false ∧ h ∉ s2.2.*1.
Proof.
  intros Hwf%reachable_wf Hin Hst Hc Hrun Hlt.
  destruct (erased_handle_rejected_slot T_id C s h s1 [] s1 Hwf Hin Hst)
    as [H1 _]; [done | done | done |].
  destruct (erased_handle_rejected_slot T_id C s h s1 ops s2
              Hwf Hin Hst Hc Hrun Hlt) as [H2 H3].
  done.
Qed.

(** C3 (as amended). [contains] only reads the pool. It returns a definite
    boolean whenever the low 16 bits of the handle are a slot index below
    the length of the slot table; for any other handle the slot table is
    read out of bounds. In a reachable state it returns false for an
    erased handle whose slot was handed out again, as long as that slot
    was handed out fewer than 65536 times since the erase. *)
Theorem contains_defined_in_bounds :
  (∀ fl h, slot_of h < len (_indices fl) → ∃ b, contains fl h = Ok b) ∧
  (∀ fl h, len (_indices fl) ≤ slot_of h → contains fl h = Undefined) ∧
  (∀ C u s h s1 ops s2,
     reachable T_id C u s → h ∈ s.2.*1 →
     step T_id s (Erase h) = Ok s1 →
     within_contract T_id s1 ops = true → run T_id s1 ops = Ok s2 →
     handed_out T_id (slot_of h) s1 ops < 0x10000 →
     contains s2.1 h = Ok false).
Proof.
  split_and!.
  - intros fl h Hlt. pose proof (slot_of_range h) as Hr.
    destruct (read_in_range (_indices fl) (slot_of h)) as [sl Hsl]; [lia|].
    unfold contains. fold (slot_of h). rewrite Hsl. simpl. eauto.
  - intros fl h Hge. unfold contains. fold (slot_of h).
    rewrite read_out_of_range by lia. done.
  - intros C u s h s1 ops s2 Hwf%reachable_wf Hin Hst Hc Hrun Hlt.
    by destruct (erased_handle_rejected_slot T_id C s h s1 ops s2
                   Hwf Hin Hst Hc Hrun Hlt).
Qed.

(** C7 (as amended). The constructor accepts exactly the capacities below
    65535: for each of them its assertion passes and a pool of that
    capacity, empty, is produced; from 65535 on the assertion fails. *)
Theorem capacity_accepted_iff (c : Z) (u : uninit) :
  0 ≤ c →
  (c < 0xFFFF →
     ∃ fl, freelist_new c u = Ok fl ∧
           _max_objects fl = c ∧ _cap_objects fl = c ∧ _num_objects fl = 0 ∧
           len (_indices fl) = c ∧ len (_object_ids fl) = c ∧
           len (_objects fl) = c) ∧
  (0xFFFF ≤ c → freelist_new (T:=T) c u = Fatal).
Proof.
  intros Hc. unfold freelist_new, assert. split.
  - intros Hlt. rewrite bool_decide_true by done. eexists. split; [done|].
    simpl. rewrite !length_fmap, length_seq, length_replicate. lia.
  - intros Hge. rewrite bool_decide_false by lia. done.
Qed.

(** C9 (as amended). Move construction from [S] gives the new pool the
    contents of [S] and leaves [S] empty with capacity zero. Move
    assignment from [S] into a distinct destination [D] exchanges the two:
    the destination receives the contents of [S], and [S] is left with what
    the destination held. *)
Theorem move_transfers_contents (m : list (freelist_t T)) (this other : nat) (D S : freelist_t T) :
  this ≠ other →
  m !! this = Some D →
  m !! other = Some S →
  move_construct S = (S, freelist_default) ∧
  _cap_objects (freelist_default (T:=T)) = 0 ∧
  _num_objects (freelist_default (T:=T)) = 0 ∧
  ∃ m', move_assign this other m = Ok m' ∧
        m' !! this = Some S ∧ m' !! other = Some D ∧
        ∀ x, x ≠ this → x ≠ other → m' !! x = m !! x.
Proof.
  intros Hne HD HS. split; [by destruct S|]. split; [done|]. split; [done|].
  unfold move_assign.
  assert (Hrd : read m (Z.of_nat this) = Ok D).
  { apply read_Ok. split; [lia|]. by rewrite Nat2Z.id. }
  assert (Hrs : read m (Z.of_nat other) = Ok S).
  { apply read_Ok. split; [lia|]. by rewrite Nat2Z.id. }
  rewrite Hrd, Ok_bind, Hrs, Ok_bind, bool_decide_true by done.
  assert (Hsw : swap D S = (S, D)) by (by destruct D, S).
  rewrite Hsw. cbv beta iota. eexists. split; [done|].
  apply lookup_lt_Some in HD, HS. split_and!.
  - rewrite list_lookup_insert_ne by done. by apply list_lookup_insert_eq.
  - apply list_lookup_insert_eq. by rewrite length_insert.
  - intros x Hx1 Hx2. by rewrite !list_lookup_insert_ne.
Qed.

End Specified.

(** ** On concrete pools *)

(** C1. [insert] returns the member [id] of the stored element, not the
    handle: in a fresh pool of capacity 4, inserting an element whose [id]
    is 0 returns 0, for which [contains] is false; [emplace], from the
    same state, returns the handle 0x10000 of the element. *)
Theorem insert_returns_member_id :
  ∃ fl', insert item_id (pool_of 4) item_0 = Ok (0, fl') ∧
         contains fl' 0 = Ok false ∧
         emplace (pool_of 4) item_0 = Ok (0x10000, fl') ∧
         contains fl' 0x10000 = Ok true ∧
         subscript fl' 0x10000 = Ok item_0.
Proof. eexists. split_and!; vm_compute; reflexivity. Qed.

(** C2. The constructor leaves [index] of every slot as it found it: in
    a fresh pool of capacity 1 on zeroed memory the slot 0 is free and on
    the free list, its [index] is 0 and not the tombstone, and
    [contains(0)] is true although the pool is empty. *)
Theorem fresh_slot_not_tombstone :
  reachable item_id 1 zeroed (pool_of 1, []) ∧
  _num_objects (pool_of 1) = 0 ∧
  ¬ occupied (T:=item) [] 0 ∧
  chain (_indices (pool_of 1)) 1 (_enqueue (pool_of 1)) [0] ∧
  (∃ sl, read (_indices (pool_of 1)) 0 = Ok sl ∧
         index sl = 0 ∧ index sl ≠ tombstone) ∧
  contains (pool_of 1) 0 = Ok true.
Proof.
  split_and!.
  - apply (after_reachable 1 []); [lia | reflexivity].
  - reflexivity.
  - intros (h & v & Hin & _). by apply not_elem_of_nil in Hin.
  - split; [reflexivity|]. eexists. split; [vm_compute; reflexivity|].
    reflexivity.
  - eexists. split; [vm_compute; reflexivity|]. split; [reflexivity|].
    discriminate.
  - vm_compute. reflexivity.
Qed.

(** C3, as stated, fails: in a pool of capacity 4 the handle 5 names a
    slot outside the slot table, and [contains] gives no boolean. *)
Lemma contains_out_of_table :
  ¬ ∃ b, contains (pool_of 4) 5 = Ok b.
Proof. intros [b Hb]. vm_compute in Hb. discriminate. Qed.

(** The three parts of the theorem of C3 in a pool of capacity 4: the
    handle 3, the handle 5, and the handle 0x10000 after its slot was
    erased and handed out again. *)
Lemma contains_defined_in_bounds_witness :
  (∃ b, contains (pool_of 4) 3 = Ok b) ∧
  contains (pool_of 4) 5 = Undefined ∧
  contains (after 4 [Emplace item_a; Erase 0x10000; Emplace item_b]).1 0x10000
    = Ok false.
Proof.
  destruct (contains_defined_in_bounds item_id) as (H1 & H2 & H3).
  split; [|split].
  - apply H1. vm_compute. reflexivity.
  - apply H2. vm_compute. discriminate.
  - apply (H3 4 zeroed (after 4 [Emplace item_a]) 0x10000
              (after 4 [Emplace item_a; Erase 0x10000]) [Emplace item_b]).
    + apply after_reachable; [lia | vm_compute; reflexivity].
    + by_eval.
    + vm_compute. reflexivity.
    + vm_compute. reflexivity.
    + vm_compute. reflexivity.
    + vm_compute. reflexivity.
Defined.

(** C4. The assertion of [insert_alloc] compares with [<=]: on a pool of
    capacity 1 that holds one element it passes, and both [insert] and
    [emplace] go on to read the slot table one past its end. *)
Theorem insert_at_capacity_not_fatal :
  reachable item_id 1 zeroed (after 1 [Emplace item_a]) ∧
  _num_objects (after 1 [Emplace item_a]).1 = 1 ∧
  _max_objects (after 1 [Emplace item_a]).1 = 1 ∧
  _enqueue (after 1 [Emplace item_a]).1 = 1 ∧
  insert_alloc (after 1 [Emplace item_a]).1 = Undefined ∧
  insert item_id (after 1 [Emplace item_a]).1 item_b = Undefined ∧
  emplace (after 1 [Emplace item_a]).1 item_b = Undefined.
Proof.
  split_and!; [|vm_compute; reflexivity..].
  apply after_reachable; [lia | vm_compute; reflexivity].
Qed.

(** C5, as stated, fails: in a pool of capacity 1 the handle 0x10000 is
    erased, the slot is used and freed 65535 times, and the next element
    stored receives 0x10000 again, for which [contains] is then true. *)
Lemma erased_handle_valid_again :
  ∃ s2,
    reachable item_id 1 zeroed (after 1 [Emplace item_a]) ∧
    0x10000 ∈ (after 1 [Emplace item_a]).2.*1 ∧
    step item_id (after 1 [Emplace item_a]) (Erase 0x10000)
      = Ok (after 1 [Emplace item_a; Erase 0x10000]) ∧
    within_contract item_id (after 1 [Emplace item_a; Erase 0x10000]) wrap_ops
      = true ∧
    run item_id (after 1 [Emplace item_a; Erase 0x10000]) wrap_ops = Ok s2 ∧
    contains s2.1 0x10000 = Ok true.
Proof.
  set (s1 := after 1 [Emplace item_a; Erase 0x10000]).
  assert (Hwf1 : wf 1 s1).
  { apply (reachable_wf item_id 1 zeroed).
    apply after_reachable; [lia | vm_compute; reflexivity]. }
  destruct (churn_spec item_id item_a (Z.to_nat 65535) s1 0x10000 Hwf1)
    as (s' & Hc & Hrun & Hwf' & Hl' & sl' & Hsl' & Hid').
  { reflexivity. }
  { eexists. split; [vm_compute; reflexivity | reflexivity]. }
  change ((0x10000 + new_object_id_add) mod uint32_mod) with 0x20000 in Hc, Hrun.
  rewrite Z2Nat.id in Hid' by lia.
  change ((0x10000 + 65535 * new_object_id_add) mod uint32_mod) with 0 in Hid'.
  destruct (single_slot s' Hwf' Hl') as [He Hn].
  destruct (insertion_spec item_id 1 s' item_a Hwf')
    as (sl & Hsl & _ & _ & _ & Hst & _ & Hwf2).
  { rewrite (wf_max _ _ Hwf'). lia. }
  rewrite He in Hsl. assert (sl = sl') as -> by congruence.
  assert (Hb : bump sl' = 0x10000).
  { unfold bump. rewrite Hid'. reflexivity. }
  rewrite Hb in *.
  exists (placed s'.1 sl' item_a, (0x10000, item_a) :: s'.2).
  split_and!.
  - apply after_reachable; [lia | vm_compute; reflexivity].
  - by_eval.
  - vm_compute. reflexivity.
  - unfold wrap_ops. eapply within_contract_app; [exact Hc | exact Hrun |].
    rewrite within_contract_unfold, Hst. unfold permitted.
    rewrite bool_decide_true by (rewrite (wf_max _ _ Hwf'); lia).
    reflexivity.
  - unfold wrap_ops. rewrite run_app, Hrun, Ok_bind, run_unfold, Hst.
    reflexivity.
  - apply (live_contains 1 _ 0x10000 item_a Hwf2). left.
Qed.

(** The theorem of C5 in a pool of capacity 4, for the handle 0x10000 and
    three operations after its erasure. *)
Lemma erased_handle_stays_invalid_witness :
  contains (after 4 [Emplace item_a; Emplace item_b; Erase 0x10000]).1 0x10000
    = Ok false ∧
  contains (after 4 [Emplace item_a; Emplace item_b; Erase 0x10000;
                     Emplace item_c; Erase 0x10001; Insert item_a]).1 0x10000
    = Ok false ∧
  0x10000 ∉ (after 4 [Emplace item_a; Emplace item_b; Erase 0x10000;
                      Emplace item_c; Erase 0x10001; Insert item_a]).2.*1.
Proof.
  apply (erased_handle_stays_invalid item_id 4 zeroed
           (after 4 [Emplace item_a; Emplace item_b]) 0x10000
           (after 4 [Emplace item_a; Emplace item_b; Erase 0x10000])
           [Emplace item_c; Erase 0x10001; Insert item_a]).
  - apply after_reachable; [lia | vm_compute; reflexivity].
  - by_eval.
  - vm_compute. reflexivity.
  - vm_compute. reflexivity.
  - vm_compute. reflexivity.
  - vm_compute. reflexivity.
Defined.

(** C6. [erase] accepts every value that passes [contains], and on
    zeroed memory the index 2 of a slot not used yet passes it, [index]
    of that slot being 0 and not the tombstone (the defect of C2). In a
    pool of capacity 4 that holds [item_a] and [item_b], 2 is valid in
    this sense and its dense position 0 is not the last one; [erase(2)]
    passes its assertion, lowers the count by one and moves [item_b] over
    the element of the handle 0x10000, which stays valid and leads to
    [item_b] where it led to [item_a]. *)
Theorem erase_of_unused_slot_overwrites_element :
  ∃ fl',
    reachable item_id 4 zeroed pool_ab4 ∧
    contains pool_ab4.1 2 = Ok true ∧
    (∃ sl, read (_indices pool_ab4.1) (slot_of 2) = Ok sl ∧
           index sl = 0 ∧ index sl ≠ _num_objects pool_ab4.1 - 1) ∧
    contains pool_ab4.1 0x10000 = Ok true ∧
    subscript pool_ab4.1 0x10000 = Ok item_a ∧
    erase pool_ab4.1 2 = Ok fl' ∧
    _num_objects fl' = _num_objects pool_ab4.1 - 1 ∧
    contains fl' 0x10000 = Ok true ∧
    subscript fl' 0x10000 = Ok item_b ∧
    item_b ≠ item_a.
Proof.
  eexists. split_and!.
  - apply after_reachable; [lia | vm_compute; reflexivity].
  - vm_compute. reflexivity.
  - eexists. split; [vm_compute; reflexivity|]. split; [reflexivity|].
    vm_compute. discriminate.
  - vm_compute. reflexivity.
  - vm_compute. reflexivity.
  - vm_compute. reflexivity.
  - vm_compute. reflexivity.
  - vm_compute. reflexivity.
  - vm_compute. reflexivity.
  - discriminate.
Qed.

(** C8. After two insertions into a fresh pool of capacity 4 on zeroed
    memory, [erase(2)], which passes the assertion through the defect of
    C2, and two more insertions, no operation has failed and the count
    is 3. The iteration yields 0x10001, 0x10002 and 0x20002: [contains]
    is false for 0x10002, and the handle 0x10000, for which [contains] is
    true, is left out. *)
Theorem iteration_after_stray_erase :
  run item_id (pool_of 4, []) stray_ops = Ok (after 4 stray_ops) ∧
  contains pool_ab4.1 2 = Ok true ∧
  _num_objects (after 4 stray_ops).1 = 3 ∧
  handles 3 (after 4 stray_ops).1 = Some (Ok [0x10001; 0x10002; 0x20002]) ∧
  contains (after 4 stray_ops).1 0x10002 = Ok false ∧
  contains (after 4 stray_ops).1 0x10000 = Ok true ∧
  0x10000 ∉ [0x10001; 0x10002; 0x20002].
Proof.
  split_and!; [vm_compute; reflexivity..|].
  rewrite !not_elem_of_cons. split_and!; try done. apply not_elem_of_nil.
Qed.

(** X18 in a pool of capacity 4 that holds three elements, for the handle
    0x10000 at dense position 0. *)
Lemma erase_swap_and_pop_witness :
  ∃ fl',
    erase (after 4 [Emplace item_a; Emplace item_b; Emplace item_c]).1 0x10000
      = Ok fl' ∧
    _num_objects fl' =
      _num_objects (after 4 [Emplace item_a; Emplace item_b; Emplace item_c]).1
      - 1 ∧
    ∀ h' v',
      (h', v') ∈ (after 4 [Emplace item_a; Emplace item_b; Emplace item_c]).2 →
      h' ≠ 0x10000 →
      subscript (after 4 [Emplace item_a; Emplace item_b; Emplace item_c]).1 h'
        = Ok v' ∧
      contains fl' h' = Ok true ∧
      subscript fl' h' = Ok v'.
Proof.
  apply (erase_swap_and_pop item_id 4 zeroed).
  - apply after_reachable; [lia | vm_compute; reflexivity].
  - by_eval.
  - intros sl Hsl. vm_compute in Hsl. injection Hsl as <-. vm_compute.
    discriminate.
Defined.

(** C7, as stated, fails: the capacity 65535 is below 65536, and the
    assertion of the constructor rejects it. *)
Lemma capacity_65535_rejected :
  1 ≤ 65535 < 65536 ∧ freelist_new (T:=item) 65535 zeroed = Fatal.
Proof. split; [lia | reflexivity]. Qed.

(** The theorem of C7 at the capacity 3. *)
Lemma capacity_accepted_iff_witness :
  (3 < 0xFFFF →
     ∃ fl : freelist_t item, freelist_new 3 zeroed = Ok fl ∧
           _max_objects fl = 3 ∧ _cap_objects fl = 3 ∧ _num_objects fl = 0 ∧
           len (_indices fl) = 3 ∧ len (_object_ids fl) = 3 ∧
           len (_objects fl) = 3) ∧
  (0xFFFF ≤ 3 → freelist_new (T:=item) 3 zeroed = Fatal).
Proof. apply (capacity_accepted_iff 3 zeroed). lia. Defined.

(** X19 in a pool of capacity 4 after three insertions and one erasure,
    with two rounds of fuel. *)
Lemma iteration_visits_live_handles_witness :
  ∃ hs,
    handles 2 (after 4 [Emplace item_a; Emplace item_b; Emplace item_c;
                        Erase 0x10000]).1 = Some (Ok hs) ∧
    hs = take (Z.to_nat (_num_objects
                 (after 4 [Emplace item_a; Emplace item_b; Emplace item_c;
                           Erase 0x10000]).1))
           (_object_ids (after 4 [Emplace item_a; Emplace item_b;
                                  Emplace item_c; Erase 0x10000]).1) ∧
    len hs = _num_objects (after 4 [Emplace item_a; Emplace item_b;
                                    Emplace item_c; Erase 0x10000]).1 ∧
    NoDup hs ∧
    (∀ h, h ∈ hs →
          contains (after 4 [Emplace item_a; Emplace item_b; Emplace item_c;
                             Erase 0x10000]).1 h = Ok true) ∧
    (∀ h, h ∈ hs ↔
          h ∈ (after 4 [Emplace item_a; Emplace item_b; Emplace item_c;
                        Erase 0x10000]).2.*1).
Proof.
  apply (iteration_visits_live_handles item_id 4 zeroed).
  - apply after_reachable; [lia | vm_compute; reflexivity].
  - vm_compute. lia.
Defined.

(** C9, as stated, fails for move assignment: assigned into a pool of
    capacity 2 that holds one element, the source is left with that
    element and that capacity. *)
Lemma move_assign_leaves_destination_in_source :
  ∃ m' src,
    move_assign 0 1 [(after 2 [Emplace item_a]).1;
                     (after 3 [Emplace item_b; Emplace item_c]).1] = Ok m' ∧
    m' !! 1%nat = Some src ∧
    _num_objects src = 1 ∧ _cap_objects src = 2 ∧ _max_objects src = 2.
Proof. do 2 eexists. split_and!; vm_compute; reflexivity. Qed.

(** The theorem of C9 for a store of two pools, each with one element. *)
Lemma move_transfers_contents_witness :
  move_construct (after 3 [Emplace item_b]).1
    = ((after 3 [Emplace item_b]).1, freelist_default) ∧
  _cap_objects (freelist_default (T:=item)) = 0 ∧
  _num_objects (freelist_default (T:=item)) = 0 ∧
  ∃ m', move_assign 0 1 [(after 2 [Emplace item_a]).1;
                         (after 3 [Emplace item_b]).1] = Ok m' ∧
        m' !! 0%nat = Some (after 3 [Emplace item_b]).1 ∧
        m' !! 1%nat = Some (after 2 [Emplace item_a]).1 ∧
        ∀ x, x ≠ 0%nat → x ≠ 1%nat →
             m' !! x = [(after 2 [Emplace item_a]).1;
                        (after 3 [Emplace item_b]).1] !! x.
Proof.
  apply (move_transfers_contents
           [(after 2 [Emplace item_a]).1; (after 3 [Emplace item_b]).1] 0 1).
  - lia.
  - reflexivity.
  - reflexivity.
Defined.

(** C10. After [erase(0x10000)] in a pool of capacity 4, [emplace]
    returns 0x20000, the handle of the same slot one generation on, while
    [insert] of an element whose member [id] is 7 returns 7: another slot
    index, and not the previous id plus 0x10000. *)
Theorem insert_after_erase_returns_member_id :
  ∃ fl1 fl2,
    reachable item_id 4 zeroed (after 4 [Emplace item_b]) ∧
    0x10000 ∈ (after 4 [Emplace item_b]).2.*1 ∧
    erase (after 4 [Emplace item_b]).1 0x10000 = Ok fl1 ∧
    insert item_id fl1 item_a = Ok (7, fl2) ∧
    slot_of 7 ≠ slot_of 0x10000 ∧
    7 ≠ (0x10000 + new_object_id_add) mod uint32_mod ∧
    emplace fl1 item_a = Ok (0x20000, fl2) ∧
    contains fl2 7 = Undefined.
Proof.
  do 2 eexists. split_and!.
  - apply after_reachable; [lia | vm_compute; reflexivity].
  - by_eval.
  - vm_compute. reflexivity.
  - vm_compute. reflexivity.
  - vm_compute. discriminate.
  - vm_compute. discriminate.
  - vm_compute. reflexivity.
  - vm_compute. reflexivity.
Qed.

(** * Further properties of the code *)

Section Validity.
Context {T : Type}.
Variable T_id : T → Z.
Implicit Types (fl : freelist_t T) (live : list (Z * T)) (h p i k : Z) (v : T).
Implicit Types (s : tracked T) (o : op T) (ops : list (op T)).

(** Erasing a handle of the book, with what the slot of the handle and
    the pool look like afterwards. *)
Lemma erase_book C s h :
  wf C s → h ∈ s.2.*1 →
  ∃ fl1, erase s.1 h = Ok fl1 ∧
         step T_id s (Erase h) = Ok (fl1, forget h s.2) ∧
         wf C (fl1, forget h s.2) ∧
         _num_objects fl1 = _num_objects s.1 - 1 ∧
         _enqueue fl1 = slot_of h ∧
         read (_indices fl1) (slot_of h) =
           Ok {| id := h; index := tombstone; next := _enqueue s.1 |}.
Proof.
  intros Hwf Hin.
  apply list_elem_of_fmap in Hin as ((h' & v) & E & Hin). simpl in E. subst h'.
  destruct s as [fl live]. simpl in *.
  destruct (wf_live _ _ Hwf _ _ Hin) as (p & _ & Ho). simpl in *.
  destruct (erase_spec C fl live h v p Hwf Hin Ho)
    as (fl1 & _ & _ & He & Hn & Hq & Hr & _ & _ & _ & Hwf1).
  exists fl1. split_and!; try done. unfold step. simpl. by rewrite He.
Qed.

(** X1. In a reachable state, erasing a handle of the book a second time
    is stopped by the assertion of [erase]: the first call succeeds, the
    second is fatal. *)
Theorem erase_twice_fatal C u s h :
  reachable T_id C u s → h ∈ s.2.*1 →
  ∃ fl1, erase s.1 h = Ok fl1 ∧ erase fl1 h = Fatal.
Proof.
  intros Hwf%reachable_wf Hin.
  destruct (erase_book C s h Hwf Hin) as (fl1 & He & Hst & _).
  exists fl1. split; [done|].
  destruct (erased_handle_rejected T_id C s h (fl1, forget h s.2) []
              (fl1, forget h s.2) Hwf Hin Hst)
    as [Hc _]; [reflexivity | reflexivity | reflexivity |].
  simpl in Hc. unfold erase. rewrite Hc. reflexivity.
Qed.

(** X3. [operator[]] on a handle that was just erased reads the storage at
    the tombstone position 0xFFFF, outside every pool: it is an access out
    of bounds. *)
Theorem subscript_erased_out_of_bounds C u s h :
  reachable T_id C u s → h ∈ s.2.*1 →
  ∃ fl1, erase s.1 h = Ok fl1 ∧ subscript fl1 h = Undefined.
Proof.
  intros Hwf%reachable_wf Hin.
  destruct (erase_book C s h Hwf Hin) as (fl1 & He & _ & Hwf1 & _ & _ & Hr).
  exists fl1. split; [done|]. unfold subscript. fold (slot_of h).
  rewrite Hr. simpl.
  pose proof (wf_objects _ _ Hwf1) as Hl. pose proof (wf_capacity _ _ Hwf1).
  simpl in Hl. rewrite read_out_of_range; [done|]. unfold tombstone. lia.
Qed.

(** X4. [operator[]] does not look at the generation: once the slot of an
    erased handle is handed out again, the erased handle, for which
    [contains] is false, leads to the element of the new handle. *)
Theorem subscript_ignores_generation C u s h v :
  reachable T_id C u s → h ∈ s.2.*1 →
  ∃ fl1 h' fl2,
    erase s.1 h = Ok fl1 ∧ emplace fl1 v = Ok (h', fl2) ∧
    h' ≠ h ∧ contains fl2 h = Ok false ∧
    subscript fl2 h = Ok v ∧ subscript fl2 h' = Ok v.
Proof.
  intros Hwf%reachable_wf Hin.
  destruct (erase_book C s h Hwf Hin) as (fl1 & He & Hst & Hwf1 & Hn & _).
  pose proof (wf_num_le _ _ Hwf) as Hle.
  destruct (insertion_spec T_id C (fl1, forget h s.2) v Hwf1)
    as (sl & Hsl & Hb & Hem & _ & Hst2 & _ & Hwf2).
  { pose proof (wf_max _ _ Hwf1) as Hm. simpl in *. lia. }
  pose proof (wf_max _ _ Hwf1) as Hm. simpl in Hsl, Hb, Hem, Hm.
  destruct (erase_then_emplace T_id C s h v Hwf Hin)
    as (fl1' & fl2' & He' & Hem' & _ & Hslot).
  assert (fl1' = fl1) as -> by congruence. rewrite Hem in Hem'.
  injection Hem' as Hh' Hfl2.
  destruct (erased_handle_rejected T_id C s h (fl1, forget h s.2) [Emplace v]
              (placed fl1 sl v, (bump sl, v) :: forget h s.2) Hwf Hin Hst)
    as [Hc Hnot].
  { rewrite within_contract_unfold, Hst2. unfold permitted. simpl.
    rewrite bool_decide_true by lia.
    reflexivity. }
  { rewrite run_unfold, Hst2. reflexivity. }
  { reflexivity. }
  simpl in Hc, Hnot.
  destruct (live_contains C _ (bump sl) v Hwf2) as [_ Hsub]; [left|].
  simpl in Hsub.
  exists fl1, (bump sl), (placed fl1 sl v). split_and!; try done.
  - intros E. apply Hnot. rewrite <- E. left.
  - unfold subscript in *. fold (slot_of h). fold (slot_of (bump sl)) in Hsub.
    rewrite <- Hslot, <- Hh'. exact Hsub.
Qed.

(** X6. In a reachable state a value not below the capacity passes
    [contains] exactly when it is a handle given out and not erased. *)
Theorem contains_iff_live C u s h :
  reachable T_id C u s → C ≤ h →
  (contains s.1 h = Ok true ↔ h ∈ s.2.*1).
Proof.
  intros Hr Hh. split.
  - intros Hc. destruct (contains_true_cases T_id C u s h Hr Hc) as [?|[? _]];
      [done | lia].
  - intros ((h' & v) & -> & Hin)%list_elem_of_fmap.
    apply reachable_wf in Hr. by destruct (live_contains C s h' v Hr Hin).
Qed.

(** X10. The handles of the book of a reachable pool have slot indices
    below the capacity, and two of them with the same slot index are the
    same handle. *)
Theorem live_slots_distinct C u s h1 h2 :
  reachable T_id C u s → h1 ∈ s.2.*1 → h2 ∈ s.2.*1 →
  0 ≤ slot_of h1 < C ∧ (slot_of h1 = slot_of h2 → h1 = h2).
Proof.
  intros Hwf%reachable_wf ((h & v1) & -> & Hin1)%list_elem_of_fmap
    ((h' & v2) & -> & Hin2)%list_elem_of_fmap. simpl.
  destruct (wf_live _ _ Hwf _ _ Hin1) as (p1 & _ & Ho1).
  destruct (wf_live _ _ Hwf _ _ Hin2) as (p2 & _ & Ho2). split.
  - destruct Ho1 as (sl & Hsl%read_range & _).
    by rewrite (wf_indices _ _ Hwf) in Hsl.
  - eauto using owns_slot.
Qed.

End Validity.

Section Mirror.
Context {T : Type}.
Variable T_id : T → Z.
Implicit Types (fl : freelist_t T) (live : list (Z * T)) (h p i k : Z) (v : T).
Implicit Types (s : tracked T) (o : op T) (ops : list (op T)).

Lemma handles_eval fl (fuel : nat) :
  0 ≤ _num_objects fl ≤ len (_object_ids fl) →
  (Z.to_nat (_num_objects fl) ≤ fuel)%nat →
  handles fuel fl =
    Some (Ok (take (Z.to_nat (_num_objects fl)) (_object_ids fl))).
Proof.
  intros Hn Hf. unfold handles, begin_, end_.
  rewrite <- (Z2Nat.id (_num_objects fl)) at 1 by lia.
  change 0 with (Z.of_nat 0).
  rewrite range_for_take by lia. by rewrite drop_0.
Qed.

Lemma handles_wf C s (fuel : nat) :
  wf C s → (Z.to_nat (_num_objects s.1) ≤ fuel)%nat →
  handles fuel s.1 =
    Some (Ok (take (Z.to_nat (_num_objects s.1)) (_object_ids s.1))).
Proof.
  intros Hwf Hf. apply handles_eval; [|done].
  pose proof (wf_num_le _ _ Hwf). rewrite (wf_object_ids _ _ Hwf). lia.
Qed.

(** What [erase] leaves in the count and in the handle mirror. *)
Lemma erase_mirror fl h fl' (sl : index_t) hl :
  erase fl h = Ok fl' →
  read (_indices fl) (slot_of h) = Ok sl →
  read (_object_ids fl) ((_num_objects fl - 1) mod size_mod) = Ok hl →
  _num_objects fl' = (_num_objects fl - 1) mod size_mod ∧
  _object_ids fl' = <[Z.to_nat (index sl) := hl]> (_object_ids fl).
Proof.
  intros H Hsl Hhl. unfold erase in H.
  apply bind_Ok in H as (c & _ & H). apply assert_Ok in H as [_ H].
  fold (slot_of h) in H. rewrite Hsl, Ok_bind in H.
  apply bind_Ok in H as ([v|] & _ & H); [|done].
  apply bind_Ok in H as (objs & _ & H).
  rewrite Hhl, Ok_bind in H.
  apply bind_Ok in H as (ids & [_ ->]%write_Ok & H).
  apply bind_Ok in H as (objs' & _ & H).
  apply bind_Ok in H as (hm & _ & H).
  apply bind_Ok in H as (a1 & _ & H).
  apply bind_Ok in H as (a2 & _ & H).
  apply bind_Ok in H as (a3 & _ & H).
  injection H as <-. done.
Qed.

End Mirror.

Section Iteration.
Context {T : Type}.
Variable T_id : T → Z.
Implicit Types (fl : freelist_t T) (live : list (Z * T)) (h p i k : Z) (v : T).
Implicit Types (s : tracked T) (o : op T) (ops : list (op T)).

(** X7. An insertion into a reachable pool with room, through [emplace] or
    [insert], adds the new handle at the end of the iteration and leaves
    the handles before it in place. *)
Theorem insertion_appends_to_iteration C u s v :
  reachable T_id C u s → _num_objects s.1 < _max_objects s.1 →
  ∃ h fl' hs,
    emplace s.1 v = Ok (h, fl') ∧
    insert T_id s.1 v = Ok (T_id v, fl') ∧
    handles (Z.to_nat (_num_objects s.1)) s.1 = Some (Ok hs) ∧
    handles (Z.to_nat (_num_objects fl')) fl' = Some (Ok (hs ++ [h])).
Proof.
  intros Hwf%reachable_wf Hlt.
  destruct (insertion_spec T_id C s v Hwf Hlt)
    as (sl & _ & _ & He & Hi & _ & _ & Hwf').
  pose proof (wf_num_le _ _ Hwf) as Hle.
  pose proof (wf_object_ids _ _ Hwf) as Hids.
  pose proof (wf_max _ _ Hwf) as Hmax.
  exists (bump sl), (placed s.1 sl v),
    (take (Z.to_nat (_num_objects s.1)) (_object_ids s.1)).
  split; [done|]. split; [done|]. split; [by eapply handles_wf|].
  rewrite (handles_wf C (placed s.1 sl v, (bump sl, v) :: s.2)) by done.
  simpl. do 2 f_equal.
  replace (Z.to_nat (_num_objects s.1 + 1))
    with (S (Z.to_nat (_num_objects s.1))) by lia.
  rewrite (take_S_r _ _ (bump sl)).
  - by rewrite take_insert_ge.
  - apply list_lookup_insert_eq. lia.
Qed.

(** X8. [erase] of a handle of the book moves one handle at most in the
    iteration: the last handle takes the place of the erased one, the
    iteration gets one shorter, every other handle keeps its place. *)
Theorem erase_moves_last_handle C u s h :
  reachable T_id C u s → h ∈ s.2.*1 →
  ∃ fl' hs (p : nat) hl,
    erase s.1 h = Ok fl' ∧
    handles (Z.to_nat (_num_objects s.1)) s.1 = Some (Ok hs) ∧
    hs !! p = Some h ∧ last hs = Some hl ∧
    handles (Z.to_nat (_num_objects fl')) fl' =
      Some (Ok (take (length hs - 1) (<[p := hl]> hs))).
Proof.
  intros Hwf%reachable_wf Hin.
  destruct (erase_book T_id C s h Hwf Hin) as (fl' & He & _ & Hwf' & Hn & _).
  apply list_elem_of_fmap in Hin as ((h' & v) & E & Hin). simpl in E. subst h'.
  destruct (wf_live _ _ Hwf _ _ Hin) as (p & Hp & sl & Hsl & _ & Hix & Hh & _).
  pose proof (wf_num_le _ _ Hwf) as Hle.
  pose proof (wf_object_ids _ _ Hwf) as Hids.
  pose proof (wf_capacity _ _ Hwf) as Hcap.
  assert (Hnn : Z.of_nat (Z.to_nat (_num_objects s.1)) = _num_objects s.1)
    by lia.
  set (n := Z.to_nat (_num_objects s.1)) in *.
  destruct (read_in_range (_object_ids s.1) (_num_objects s.1 - 1))
    as [hl Hhl]; [lia|].
  destruct (erase_mirror s.1 h fl' sl hl He Hsl) as [_ Hids'].
  { rewrite Z.mod_small; [done | unfold size_mod; lia]. }
  apply read_Ok in Hh as [_ Hh]. apply read_Ok in Hhl as [_ Hhl].
  exists fl', (take n (_object_ids s.1)), (Z.to_nat p), hl.
  split; [done|]. split; [by eapply handles_wf|].
  assert (Hlen : length (take n (_object_ids s.1)) = n).
  { rewrite length_take. lia. }
  split_and!.
  - rewrite lookup_take_lt by lia. done.
  - rewrite last_lookup, Hlen, lookup_take_lt by lia.
    rewrite <- Hhl. f_equal. lia.
  - rewrite (handles_wf C (fl', forget h s.2)) by done. simpl.
    do 2 f_equal. rewrite Hn, Hids', Hix, Hlen.
    rewrite <- take_insert_lt by lia.
    rewrite take_take. f_equal. lia.
Qed.

(** X9. Storing an element in a reachable pool with room and erasing it
    again restores the count, the head of the free list and the iteration;
    every handle of the book still leads to its value, and the handle
    that was given out meanwhile is invalid. *)
Theorem emplace_erase_round_trip C u s v :
  reachable T_id C u s → _num_objects s.1 < _max_objects s.1 →
  ∃ h fl1 fl2,
    emplace s.1 v = Ok (h, fl1) ∧ erase fl1 h = Ok fl2 ∧
    _num_objects fl2 = _num_objects s.1 ∧
    _enqueue fl2 = _enqueue s.1 ∧
    handles (Z.to_nat (_num_objects fl2)) fl2 =
      handles (Z.to_nat (_num_objects s.1)) s.1 ∧
    (∀ h' v', (h', v') ∈ s.2 →
       contains fl2 h' = Ok true ∧ subscript fl2 h' = Ok v') ∧
    contains fl2 h = Ok false.
Proof.
  intros Hwf%reachable_wf Hlt.
  destruct (insertion_spec T_id C s v Hwf Hlt)
    as (sl & Hsl & Hb & He & _ & Hst & _ & Hwf1).
  set (h := bump sl) in *. set (s1 := (placed s.1 sl v, (h, v) :: s.2)) in *.
  assert (Hin : h ∈ s1.2.*1) by (simpl; left).
  destruct (erase_book T_id C s1 h Hwf1 Hin)
    as (fl2 & He2 & Hst2 & Hwf2 & Hn2 & Hq2 & _).
  assert (Hnot : h ∉ s.2.*1).
  { pose proof (wf_nodup _ _ Hwf1) as Hnd. simpl in Hnd.
    by apply NoDup_cons in Hnd as [? _]. }
  assert (Hf : forget h s1.2 = s.2).
  { unfold forget. simpl. rewrite filter_cons. simpl.
    rewrite decide_False by auto. by apply forget_absent. }
  rewrite Hf in Hwf2.
  pose proof (wf_num_le _ _ Hwf) as Hle.
  pose proof (wf_object_ids _ _ Hwf) as Hids.
  pose proof (wf_capacity _ _ Hwf) as Hcap.
  pose proof (wf_max _ _ Hwf) as Hmax.
  exists h, (placed s.1 sl v), fl2.
  split; [done|]. split; [done|]. simpl in Hn2.
  split; [lia|]. split; [congruence|]. split_and!.
  - rewrite (handles_wf C (fl2, s.2)) by done.
    rewrite (handles_wf C s) by done. simpl. do 2 f_equal.
    assert (Hr1 : read (_indices s1.1) (slot_of h) =
              Ok {| id := h; index := _num_objects s.1; next := next sl |}).
    { simpl. rewrite Hb. apply read_insert_eq. by eapply read_range. }
    destruct (erase_mirror s1.1 h fl2 _ h He2 Hr1) as [_ Hids2].
    { simpl. rewrite Z.mod_small by (unfold size_mod; lia).
      replace (_num_objects s.1 + 1 - 1) with (_num_objects s.1) by lia.
      apply read_insert_eq. lia. }
    rewrite Hn2, Hids2. simpl.
    replace (_num_objects s.1 + 1 - 1) with (_num_objects s.1) by lia.
    by rewrite !take_insert_ge.
  - intros h' v' Hin'. by apply (live_contains C (fl2, s.2)).
  - destruct (erased_handle_rejected T_id C s1 h (fl2, forget h s1.2) []
                (fl2, forget h s1.2) Hwf1 Hin Hst2) as [Hc _];
      [reflexivity | reflexivity | reflexivity | done].
Qed.

Lemma erasures_cons o ops :
  erasures (o :: ops) = (if is_insertion o then 0 else 1) + erasures ops.
Proof.
  unfold erasures. rewrite filter_cons.
  destruct (is_insertion o); simpl; lia.
Qed.

Lemma book_length C s ops s' :
  wf C s → within_contract T_id s ops = true → run T_id s ops = Ok s' →
  len s'.2 = len s.2 + insertions ops - erasures ops.
Proof.
  revert s. induction ops as [|o ops IH]; intros s Hwf Hc Hrun.
  - simpl in Hrun. simplify_eq. unfold insertions, erasures. simpl. lia.
  - apply within_contract_cons in Hc as (Hp & s1 & Hs & Hc).
    rewrite run_unfold, Hs, Ok_bind in Hrun.
    destruct (step_wf T_id C s o Hwf Hp) as (s1' & Hs' & Hwf1).
    assert (s1' = s1) as -> by congruence.
    rewrite (IH s1 Hwf1 Hc Hrun), insertions_cons, erasures_cons.
    destruct o as [v|v|h]; simpl in Hp; apply bool_decide_eq_true in Hp.
    + destruct (insertion_spec T_id C s v Hwf Hp)
        as (sl & _ & _ & _ & _ & _ & Hst & _).
      rewrite Hst in Hs. simplify_eq. simpl. lia.
    + destruct (insertion_spec T_id C s v Hwf Hp)
        as (sl & _ & _ & _ & _ & Hst & _ & _).
      rewrite Hst in Hs. simplify_eq. simpl. lia.
    + destruct (erase_book T_id C s h Hwf Hp) as (fl1 & _ & Hst & _).
      rewrite Hst in Hs. simplify_eq. simpl.
      rewrite forget_length; [lia | by eapply wf_nodup | done].
Qed.

(** X5. After a sequence of operations within the contract on a fresh
    pool, the count is the number of insertions minus the number of
    erasures, lies between 0 and the capacity, and is the number of
    handles in the book. *)
Theorem count_is_insertions_minus_erasures C u fl0 ops s :
  0 ≤ C → freelist_new C u = Ok fl0 →
  within_contract T_id (fl0, []) ops = true →
  run T_id (fl0, []) ops = Ok s →
  _num_objects s.1 = insertions ops - erasures ops ∧
  0 ≤ _num_objects s.1 ≤ C ∧
  _num_objects s.1 = len s.2.
Proof.
  intros HC Hnew Hc Hrun.
  pose proof (freelist_new_wf C u fl0 HC Hnew) as Hwf0.
  destruct (run_wf T_id C _ ops Hwf0 Hc) as (s' & Hrun' & Hwf).
  assert (s' = s) as -> by congruence.
  pose proof (book_length C _ ops s Hwf0 Hc Hrun) as Hl. simpl in Hl.
  rewrite (wf_num _ _ Hwf). split; [lia|]. split; [|done].
  rewrite <- (wf_num _ _ Hwf). by apply wf_num_le.
Qed.

End Iteration.

Section Filling.
Context {T : Type}.
Variable T_id : T → Z.
Implicit Types (fl : freelist_t T) (live : list (Z * T)) (h p i : Z) (v : T).
Implicit Types (s : tracked T) (o : op T) (ops : list (op T)).



End Filling.

Section Loops.
Context {T : Type}.
Implicit Types (fl other : freelist_t T) (i : Z).

Lemma for_loop_ext {S} (f g : Z → S → result S) i (k : nat) (st : S) :
  (∀ j x, f j x = g j x) → for_loop f i k st = for_loop g i k st.
Proof.
  intros E. revert i st. induction k as [|k IH]; intros i st; simpl; [done|].
  rewrite E. destruct (g i st); simpl; [apply IH | done | done].
Qed.

Lemma for_loop_S {S} (f : Z → S → result S) i (k : nat) (st : S) :
  for_loop f i (Datatypes.S k) st = st' ← f i st; for_loop f (i + 1) k st'.
Proof. reflexivity. Qed.

Lemma assign_element_copy other num i st :
  assign_element other num i st = copy_element other i st.
Proof.
  unfold assign_element, copy_element.
  destruct (read (_objects other) i) as [[v|]| |]; simpl; try done.
  by case_bool_decide.
Qed.

Lemma copy_slot_eval other i (a : list index_t) (s : index_t) :
  read (_indices other) i = Ok s → 0 ≤ i < len a →
  copy_slot other i a = Ok (<[Z.to_nat i := s]> a).
Proof.
  intros Hs Hi. unfold copy_slot. rewrite Hs, Ok_bind. by apply write_in_range.
Qed.

Lemma copy_element_eval other i (objs : list (option T)) (ids : list Z)
    (v : T) (h : Z) :
  read (_objects other) i = Ok (Some v) →
  read (_object_ids other) i = Ok h →
  0 ≤ i < len objs → 0 ≤ i < len ids →
  copy_element other i (objs, ids) =
    Ok (<[Z.to_nat i := Some v]> objs, <[Z.to_nat i := h]> ids).
Proof.
  intros Hv Hh Ho Hi. unfold copy_element. cbn [fst snd].
  rewrite Hv, Ok_bind, write_in_range, Ok_bind by done.
  rewrite Hh, Ok_bind, write_in_range, Ok_bind by done. done.
Qed.

(** The loop over the slot table copies the slots [i .. i + k - 1]. *)
Lemma copy_slots other (k : nat) i (a : list index_t) :
  0 ≤ i → i + Z.of_nat k ≤ len a → i + Z.of_nat k ≤ len (_indices other) →
  ∃ a', for_loop (copy_slot other) i k a = Ok a' ∧
        length a' = length a ∧
        (∀ j, i ≤ j < i + Z.of_nat k → read a' j = read (_indices other) j) ∧
        (∀ j, ¬ i ≤ j < i + Z.of_nat k → read a' j = read a j).
Proof.
  revert i a. induction k as [|k IH]; intros i a Hi Ha Ho.
  - exists a. simpl. split_and!; try done. intros j Hj. lia.
  - destruct (read_in_range (_indices other) i) as [s Hs]; [lia|].
    rewrite for_loop_S, (copy_slot_eval other i a s), Ok_bind by (done || lia).
    destruct (IH (i + 1) (<[Z.to_nat i := s]> a)) as (a' & Hl & Hlen & Hin & Hout).
    { lia. } { rewrite length_insert. lia. } { lia. }
    exists a'. split; [done|]. rewrite length_insert in Hlen. split; [done|].
    split.
    + intros j Hj. destruct (decide (j = i)) as [->|Hne].
      * rewrite Hout by lia. rewrite read_insert_eq by lia. done.
      * apply Hin. lia.
    + intros j Hj. rewrite Hout by lia. apply read_insert_ne; lia.
Qed.

(** The loop over the elements copies the objects and the handles at the
    positions [i .. i + k - 1], where the source has live objects. *)
Lemma copy_elements other (k : nat) i (objs : list (option T)) (ids : list Z) :
  0 ≤ i → i + Z.of_nat k ≤ len objs → i + Z.of_nat k ≤ len ids →
  i + Z.of_nat k ≤ len (_object_ids other) →
  (∀ j, i ≤ j < i + Z.of_nat k →
        ∃ v, read (_objects other) j = Ok (Some v)) →
  ∃ objs' ids',
    for_loop (copy_element other) i k (objs, ids) = Ok (objs', ids') ∧
    length objs' = length objs ∧ length ids' = length ids ∧
    (∀ j, i ≤ j < i + Z.of_nat k →
          read objs' j = read (_objects other) j ∧
          read ids' j = read (_object_ids other) j) ∧
    (∀ j, ¬ i ≤ j < i + Z.of_nat k →
          read objs' j = read objs j ∧ read ids' j = read ids j).
Proof.
  revert i objs ids. induction k as [|k IH]; intros i objs ids Hi Ho Hd Hs Hlive.
  - exists objs, ids. simpl. split_and!; try done. intros j Hj. lia.
  - destruct (Hlive i) as [v Hv]; [lia|].
    destruct (read_in_range (_object_ids other) i) as [h Hh]; [lia|].
    rewrite for_loop_S, (copy_element_eval other i objs ids v h), Ok_bind
      by (done || lia).
    destruct (IH (i + 1) (<[Z.to_nat i := Some v]> objs)
                (<[Z.to_nat i := h]> ids))
      as (objs' & ids' & Hl & Hlo & Hli & Hin & Hout).
    { lia. } { rewrite length_insert. lia. } { rewrite length_insert. lia. }
    { lia. } { intros j Hj. apply Hlive. lia. }
    exists objs', ids'. split; [done|]. rewrite length_insert in Hlo. rewrite length_insert in Hli.
    split; [done|]. split; [done|]. split.
    + intros j Hj. destruct (decide (j = i)) as [->|Hne].
      * destruct (Hout i) as [-> ->]; [lia|].
        rewrite !read_insert_eq by lia. done.
      * apply Hin. lia.
    + intros j Hj. destruct (Hout j) as [-> ->]; [lia|].
      rewrite !read_insert_ne by lia. done.
Qed.

(** The loop of the destructor destroys the objects at the positions
    [i .. i + k - 1], in that order. *)
Lemma destroy_loop fl (k : nat) i (acc : list T) :
  0 ≤ i →
  (∀ j, i ≤ j < i + Z.of_nat k → ∃ v, read (_objects fl) j = Ok (Some v)) →
  ∃ vs,
    for_loop
      (λ i done,
         o ← read (_objects fl) i;
         match o with
         | Some v => Ok (done ++ [v])
         | None => Undefined
         end) i k acc = Ok (acc ++ vs) ∧
    length vs = k ∧
    ∀ j : nat, (j < k)%nat →
      read (_objects fl) (i + Z.of_nat j) = Ok (vs !! j).
Proof.
  revert i acc. induction k as [|k IH]; intros i acc Hi Hlive.
  - exists []. simpl. rewrite app_nil_r. split_and!; try done. lia.
  - rewrite for_loop_S. destruct (Hlive i) as [v Hv]; [lia|].
    rewrite Hv, !Ok_bind.
    destruct (IH (i + 1) (acc ++ [v])) as (vs & Hl & Hlen & Hvs); [lia| |].
    { intros j Hj. apply Hlive. lia. }
    exists (v :: vs). rewrite Hl, <- app_assoc. split; [done|].
    split; [simpl; lia|]. intros [|j] Hj; simpl.
    + by rewrite Z.add_0_r.
    + rewrite <- Hvs by lia. f_equal. lia.
Qed.

End Loops.

Section Copies.
Context {T : Type}.
Variable T_id : T → Z.
Implicit Types (fl : freelist_t T) (live : list (Z * T)) (h p i : Z) (v : T).
Implicit Types (s : tracked T) (o : op T) (ops : list (op T)).

Lemma read_lookup {A} (a b : list A) (j : nat) :
  read a (Z.of_nat j) = read b (Z.of_nat j) → a !! j = b !! j.
Proof.
  unfold read. rewrite bool_decide_true by lia. rewrite Nat2Z.id.
  destruct (a !! j), (b !! j); congruence.
Qed.

Lemma take_agree {A} (a b : list A) (n : nat) :
  (∀ j : nat, (j < n)%nat → read a (Z.of_nat j) = read b (Z.of_nat j)) →
  take n a = take n b.
Proof.
  intros E. apply list_eq. intros j. destruct (decide (j < n)%nat).
  - rewrite !lookup_take_lt by done. apply read_lookup. by apply E.
  - rewrite !lookup_take_ge by lia. done.
Qed.

(** The invariant looks at the count, the capacity, the head of the free
    list, the slot table, and the mirror and the storage below the count. *)
Lemma wf_agree C fl fl' live :
  wf C (fl, live) →
  _num_objects fl' = _num_objects fl →
  _max_objects fl' = _max_objects fl →
  _enqueue fl' = _enqueue fl →
  len (_indices fl') = C → len (_object_ids fl') = C →
  len (_objects fl') = C →
  (∀ j, read (_indices fl') j = read (_indices fl) j) →
  (∀ p, 0 ≤ p < _num_objects fl →
        read (_object_ids fl') p = read (_object_ids fl) p ∧
        read (_objects fl') p = read (_objects fl) p) →
  wf C (fl', live).
Proof.
  intros [Hcap Hmax Hinds Hids Hobjs Hnum Hslots Hlive Hdense Hnd Hfree]
    En Em Ee Hli Hlm Hlo Ei Ed. simpl in *.
  assert (Hown : ∀ h v p, 0 ≤ p < _num_objects fl →
            owns fl h v p → owns fl' h v p).
  { intros h v p Hp (sl & Hsl & ? & ? & Hh & Hv). exists sl.
    rewrite Ei. destruct (Ed p Hp) as [-> ->]. done. }
  split; simpl; try done; try congruence.
  - intros j sl. rewrite Ei. apply Hslots.
  - intros h v Hin. destruct (Hlive _ _ Hin) as (p & Hp & Ho).
    exists p. rewrite En. split; [done|]. by apply Hown.
  - intros p Hp. rewrite En in Hp.
    destruct (Hdense p Hp) as (h & v & Hin & Ho).
    exists h, v. split; [done|]. by apply Hown.
  - destruct Hfree as (fr & Hch & Hndf & Hlen & Hfr & Hcov).
    exists fr. rewrite Ee, En. split_and!; try done.
    + eapply chain_ext; [|done]. intros j _. apply Ei.
    + intros j Hj. destruct (Hfr j Hj) as [? Hst]. split; [done|].
      intros sl. rewrite Ei. apply Hst.
Qed.

Lemma erase_capacity fl h fl' :
  erase fl h = Ok fl' →
  _cap_objects fl' = _cap_objects fl ∧ _max_objects fl' = _max_objects fl.
Proof.
  intros H. unfold erase in H.
  apply bind_Ok in H as (c & _ & H). apply assert_Ok in H as [_ H].
  apply bind_Ok in H as (sl & _ & H).
  apply bind_Ok in H as ([v|] & _ & H); [|done].
  apply bind_Ok in H as (objs & _ & H).
  apply bind_Ok in H as (hl & _ & H).
  apply bind_Ok in H as (ids & _ & H).
  apply bind_Ok in H as (objs' & _ & H).
  apply bind_Ok in H as (hm & _ & H).
  apply bind_Ok in H as (a1 & _ & H).
  apply bind_Ok in H as (a2 & _ & H).
  apply bind_Ok in H as (a3 & _ & H).
  injection H as <-. done.
Qed.

Lemma run_capacity C s ops s' :
  wf C s → within_contract T_id s ops = true → run T_id s ops = Ok s' →
  _cap_objects s'.1 = _cap_objects s.1.
Proof.
  revert s. induction ops as [|o ops IH]; intros s Hwf Hc Hrun.
  - simpl in Hrun. by simplify_eq.
  - apply within_contract_cons in Hc as (Hp & s1 & Hs & Hc).
    rewrite run_unfold, Hs, Ok_bind in Hrun.
    destruct (step_wf T_id C s o Hwf Hp) as (s1' & Hs' & Hwf1).
    assert (s1' = s1) as -> by congruence.
    rewrite (IH s1 Hwf1 Hc Hrun).
    destruct o as [v|v|h]; simpl in Hp; apply bool_decide_eq_true in Hp.
    + destruct (insertion_spec T_id C s v Hwf Hp)
        as (sl & _ & _ & _ & _ & _ & Hst & _).
      rewrite Hst in Hs. by simplify_eq.
    + destruct (insertion_spec T_id C s v Hwf Hp)
        as (sl & _ & _ & _ & _ & Hst & _ & _).
      rewrite Hst in Hs. by simplify_eq.
    + destruct (erase_book T_id C s h Hwf Hp) as (fl1 & He & Hst & _).
      rewrite Hst in Hs. simplify_eq. simpl.
      by destruct (erase_capacity _ _ _ He).
Qed.

Lemma reachable_capacity C u s :
  reachable T_id C u s → _cap_objects s.1 = C.
Proof.
  intros (fl0 & ops & HC & Hnew & Hc & Hrun).
  pose proof (freelist_new_wf C u fl0 HC Hnew) as Hwf0.
  rewrite (run_capacity C _ ops s Hwf0 Hc Hrun). simpl.
  unfold freelist_new in Hnew. apply assert_Ok in Hnew as [_ Hnew].
  by injection Hnew as <-.
Qed.

(** The handles at the dense positions are pairwise different. *)
Lemma mirror_nodup C s :
  wf C s → NoDup (take (Z.to_nat (_num_objects s.1)) (_object_ids s.1)).
Proof.
  intros Hwf. pose proof (wf_num_le _ _ Hwf) as Hle.
  apply NoDup_alt.
  intros j1 j2 h [Hj1 Hl1]%lookup_take_Some [Hj2 Hl2]%lookup_take_Some.
  destruct (wf_dense _ _ Hwf (Z.of_nat j1)) as (h1 & v1 & _ & Ho1); [lia|].
  destruct (wf_dense _ _ Hwf (Z.of_nat j2)) as (h2 & v2 & _ & Ho2); [lia|].
  assert (h1 = h) as ->.
  { destruct Ho1 as (_ & _ & _ & _ & [_ Hh]%read_Ok & _).
    rewrite Nat2Z.id in Hh. congruence. }
  assert (h2 = h) as ->.
  { destruct Ho2 as (_ & _ & _ & _ & [_ Hh]%read_Ok & _).
    rewrite Nat2Z.id in Hh. congruence. }
  pose proof (owns_position _ _ _ _ _ _ Ho1 Ho2). lia.
Qed.

(** The loop of the destructor on a pool that satisfies the invariant. *)
Lemma destroy_elements_wf C s :
  wf C s →
  ∃ vs, destroy_elements s.1 = Ok vs ∧
        len vs = _num_objects s.1 ∧
        (∀ j : nat, (j < length vs)%nat →
           read (_objects s.1) (Z.of_nat j) = Ok (vs !! j)) ∧
        vs ≡ₚ s.2.*2.
Proof.
  intros Hwf. pose proof (wf_num_le _ _ Hwf) as Hle.
  pose proof (wf_object_ids _ _ Hwf) as Hlids.
  set (n := Z.to_nat (_num_objects s.1)).
  destruct (destroy_loop s.1 n 0 []) as (vs & Hl & Hlen & Hvs); [lia| |].
  { intros j Hj. destruct (wf_dense _ _ Hwf j) as (h & v & _ & Ho); [lia|].
    destruct Ho as (_ & _ & _ & _ & _ & Hv). eauto. }
  exists vs. split; [exact Hl|]. split; [lia|]. split.
  { intros j Hj. rewrite <- Hvs by lia. f_equal. }
  set (hs := take n (_object_ids s.1)).
  assert (Hlhs : length hs = n) by (unfold hs; rewrite length_take; lia).
  assert (Hperm : zip hs vs ≡ₚ s.2).
  { apply NoDup_Permutation.
    - apply (NoDup_fmap_1 fst). rewrite fst_zip by lia.
      by apply (mirror_nodup C).
    - apply (NoDup_fmap_1 fst). by apply (wf_nodup C).
    - intros [h v]. split.
      + intros (j & Hj)%list_elem_of_lookup.
        apply lookup_zip_with_Some in Hj as (h' & v' & E & Hh & Hv).
        injection E as <- <-.
        apply lookup_take_Some in Hh as [Hh Hjn].
        destruct (wf_dense _ _ Hwf (Z.of_nat j)) as (h1 & v1 & Hin & Ho); [lia|].
        destruct Ho as (_ & _ & _ & _ & [_ Hh1]%read_Ok & Hv1).
        rewrite Nat2Z.id in Hh1. assert (h1 = h) as -> by congruence.
        specialize (Hvs j ltac:(lia)). rewrite Z.add_0_l, Hv in Hvs.
        assert (v1 = v) as -> by congruence. done.
      + intros Hin.
        destruct (wf_live _ _ Hwf _ _ Hin)
          as (p & Hp & _ & _ & _ & _ & [_ Hh]%read_Ok & Hv).
        apply list_elem_of_lookup. exists (Z.to_nat p).
        apply lookup_zip_with_Some. exists h, v. split; [done|]. split.
        * unfold hs. rewrite lookup_take_lt by lia. done.
        * specialize (Hvs (Z.to_nat p) ltac:(lia)).
          rewrite Z.add_0_l, Z2Nat.id in Hvs by lia. congruence. }
  rewrite <- Hperm. by rewrite snd_zip by lia.
Qed.

(** The copy constructor on a pool that satisfies the invariant. *)
Lemma copy_construct_wf C s (u : uninit) (raw : nat → index_t) :
  wf C s →
  ∃ fl', copy_construct s.1 u raw = Ok fl' ∧
         wf C (fl', s.2) ∧
         _cap_objects fl' = _cap_objects s.1 ∧
         take (Z.to_nat (_num_objects fl')) (_object_ids fl') =
           take (Z.to_nat (_num_objects s.1)) (_object_ids s.1).
Proof.
  intros Hwf. pose proof (wf_num_le _ _ Hwf) as Hle.
  pose proof (wf_capacity _ _ Hwf) as Hcap.
  pose proof (wf_max _ _ Hwf) as Hmax.
  pose proof (wf_indices _ _ Hwf) as Hli.
  pose proof (wf_object_ids _ _ Hwf) as Hlm.
  pose proof (wf_objects _ _ Hwf) as Hlo.
  set (n := Z.to_nat (_max_objects s.1)).
  assert (Hn : Z.of_nat n = C) by lia.
  destruct (copy_elements s.1 (Z.to_nat (_num_objects s.1)) 0
              (replicate n None)
              ((λ j : nat, uninit_object_id u j mod uint32_mod) <$> seq 0 n))
    as (objs & ids & Hl1 & Hlo' & Hlm' & Hin1 & _).
  { lia. } { rewrite length_replicate. lia. }
  { rewrite length_fmap, length_seq. lia. } { lia. }
  { intros j Hj. destruct (wf_dense _ _ Hwf j) as (h & v & _ & Ho); [lia|].
    destruct Ho as (_ & _ & _ & _ & _ & Hv). eauto. }
  destruct (copy_slots s.1 n 0 (raw <$> seq 0 n))
    as (inds & Hl2 & Hli' & Hin2 & Hout2).
  { lia. } { rewrite length_fmap, length_seq. lia. } { lia. }
  rewrite length_replicate in Hlo'.
  rewrite length_fmap, length_seq in Hlm'.
  rewrite length_fmap, length_seq in Hli'.
  eexists. unfold copy_construct. fold n.
  rewrite Hl1, Ok_bind. cbv beta iota. rewrite Hl2, Ok_bind.
  split; [reflexivity|].
  assert (Hag : ∀ p, 0 ≤ p < _num_objects s.1 →
            read ids p = read (_object_ids s.1) p ∧
            read objs p = read (_objects s.1) p).
  { intros p Hp. destruct (Hin1 p) as [-> ->]; [lia | done]. }
  split; [|split; [done|]].
  - apply (wf_agree C s.1); simpl; try done; try lia.
    + by destruct s.
    + intros j. destruct (decide (0 ≤ j < Z.of_nat n)) as [Hj|Hj].
      * apply Hin2. lia.
      * rewrite !read_out_of_range by lia. done.
  - simpl. apply take_agree. intros j Hj. apply Hag. lia.
Qed.

(** The destructor of a pool whose storage was allocated ends in the
    array delete expression that is undefined; its loop cannot fail an
    assertion. *)
Lemma destructor_allocated fl : destructor false fl = Undefined.
Proof.
  unfold destructor, destroy_elements.
  set (body := λ (i : Z) (done : list T),
         o ← read (_objects fl) i;
         match o with
         | Some v => Ok (done ++ [v])
         | None => Undefined
         end).
  assert (H : ∀ (k : nat) i acc,
            for_loop body i k acc ≫=
              (λ destroyed, delete_objects false ;; Ok destroyed) = Undefined).
  { intros k. induction k as [|k IH]; intros i acc; [done|].
    rewrite for_loop_S.
    assert (Hb : body i acc = o ← read (_objects fl) i;
                              match o with
                              | Some v => Ok (acc ++ [v])
                              | None => Undefined
                              end) by reflexivity.
    rewrite Hb. pose proof (read_not_fatal (_objects fl) i) as Hnf.
    destruct (read (_objects fl) i) as [[v|]| |]; try done.
    rewrite !Ok_bind. apply IH. }
  apply H.
Qed.

(** X15. In the destructor of a reachable pool the loop runs the
    destructor of as many elements as the count says, the values of the
    book, each once, within the storage; the destructor then releases
    [_objects], storage that the constructor obtained as an array of
    [char], as an array of [T], so that it has no defined outcome. *)
Theorem destructor_destroys_live_elements C u s :
  reachable T_id C u s →
  ∃ vs, destroy_elements s.1 = Ok vs ∧
        len vs = _num_objects s.1 ∧
        vs ≡ₚ s.2.*2 ∧
        destructor false s.1 = Undefined.
Proof.
  intros Hwf%reachable_wf.
  destruct (destroy_elements_wf C s Hwf) as (vs & ? & ? & _ & ?).
  exists vs. split_and!; try done. apply destructor_allocated.
Qed.

(** X12. The copy constructor, applied to a reachable pool, succeeds
    whatever the allocated memory held before: the copy has the count and
    the capacity of the source, every handle of the book is valid in it
    and leads to the same value, its iteration is that of the source, and
    it satisfies the representation invariant with the same book. *)
Theorem copy_constructor_clones C u s (u' : uninit) (raw : nat → index_t) :
  reachable T_id C u s →
  ∃ fl', copy_construct s.1 u' raw = Ok fl' ∧
         _num_objects fl' = _num_objects s.1 ∧
         _max_objects fl' = _max_objects s.1 ∧
         (∀ h v, (h, v) ∈ s.2 →
            contains fl' h = Ok true ∧ subscript fl' h = Ok v) ∧
         handles (Z.to_nat (_num_objects fl')) fl' =
           handles (Z.to_nat (_num_objects s.1)) s.1 ∧
         wf C (fl', s.2).
Proof.
  intros Hwf%reachable_wf.
  destruct (copy_construct_wf C s u' raw Hwf) as (fl' & Hc & Hwf' & _ & Ht).
  exists fl'. split; [done|].
  pose proof (wf_num _ _ Hwf) as Hn. pose proof (wf_num _ _ Hwf') as Hn'.
  pose proof (wf_max _ _ Hwf) as Hm. pose proof (wf_max _ _ Hwf') as Hm'.
  simpl in *. split; [congruence|]. split; [congruence|]. split_and!.
  - intros h v Hin. by apply (live_contains C (fl', s.2)).
  - rewrite (handles_wf C (fl', s.2)), (handles_wf C s) by done.
    simpl. by rewrite Ht.
  - done.
Qed.

End Copies.

Section Assignment.
Context {T : Type}.
Variable T_id : T → Z.
Implicit Types (fl : freelist_t T) (live : list (Z * T)) (h p i : Z) (v : T).
Implicit Types (s : tracked T) (o : op T) (ops : list (op T)).

Lemma owns_valid fl h v p :
  owns fl h v p → 0 ≤ p < tombstone →
  contains fl h = Ok true ∧ subscript fl h = Ok v.
Proof.
  intros (sl & Hsl & Hid & Hix & Hh & Hv) Hp.
  unfold contains, subscript. fold (slot_of h). rewrite Hsl, !Ok_bind.
  rewrite Hix, Hv, Ok_bind. split; [|done].
  rewrite bool_decide_true by done. rewrite bool_decide_false by lia. done.
Qed.

Lemma store_read (m : list (freelist_t T)) (a : nat) fl :
  m !! a = Some fl → read m (Z.of_nat a) = Ok fl.
Proof. intros H. apply read_Ok. split; [lia|]. by rewrite Nat2Z.id. Qed.

(** X14. Copy assignment from a reachable pool into a different reachable
    pool of smaller capacity takes the reallocating branch and calls the
    destructor of the destination: its loop destroys the elements of the
    destination, each once, and the release of [_objects] that follows is
    undefined, so that the assignment has no defined outcome. *)
Theorem copy_assign_reallocates (m : list (freelist_t T)) (this other : nat)
    Ca ua sa Cb ub sb (u : uninit) (raw : nat → index_t) :
  this ≠ other →
  reachable T_id Ca ua sa → m !! this = Some sa.1 →
  reachable T_id Cb ub sb → m !! other = Some sb.1 →
  Ca < Cb →
  _cap_objects sa.1 < _max_objects sb.1 ∧
  (∃ destroyed, destroy_elements sa.1 = Ok destroyed ∧
                destroyed ≡ₚ sa.2.*2) ∧
  copy_assign this other m false u raw = Undefined.
Proof.
  intros Hne Hra Ha Hrb Hb Hlt.
  pose proof (reachable_capacity T_id _ _ _ Hra) as Hcapa.
  apply reachable_wf in Hra as Hwfa. apply reachable_wf in Hrb as Hwfb.
  destruct (destroy_elements_wf Ca sa Hwfa) as (d & Hd & _ & _ & Hperm).
  pose proof (wf_max _ _ Hwfb) as Hmb.
  split; [lia|]. split; [by exists d|].
  unfold copy_assign.
  rewrite (store_read _ _ _ Ha), Ok_bind, (store_read _ _ _ Hb), Ok_bind.
  rewrite bool_decide_true by done. rewrite bool_decide_true by lia.
  by rewrite destructor_allocated.
Qed.

(** X20. Copy assignment from a reachable pool of capacity above zero
    into a different, default-constructed pool takes the reallocating
    branch: the destructor of the destination has no element to destroy
    and releases null pointers, and the destination becomes a copy of the
    source, of the source's capacity, in which every handle of the
    source's book is valid with the same value; the source is unchanged. *)
Theorem copy_assign_into_default_pool (m : list (freelist_t T))
    (this other : nat) Cb ub sb (u : uninit) (raw : nat → index_t) :
  this ≠ other →
  m !! this = Some freelist_default →
  reachable T_id Cb ub sb → m !! other = Some sb.1 →
  0 < Cb →
  ∃ m' c,
    copy_assign this other m true u raw = Ok (m', []) ∧
    m' !! this = Some c ∧ m' !! other = Some sb.1 ∧
    _num_objects c = _num_objects sb.1 ∧
    _max_objects c = Cb ∧ _cap_objects c = Cb ∧
    (∀ h v, (h, v) ∈ sb.2 →
       contains c h = Ok true ∧ subscript c h = Ok v) ∧
    wf Cb (c, sb.2).
Proof.
  intros Hne Ha Hrb Hb Hlt.
  pose proof (reachable_capacity T_id _ _ _ Hrb) as Hcapb.
  apply reachable_wf in Hrb as Hwfb.
  destruct (copy_construct_wf Cb sb u raw Hwfb) as (c & Hc & Hwfc & Hcc & _).
  pose proof (wf_max _ _ Hwfb) as Hmb.
  exists (<[this := c]> m), c. split_and!.
  - unfold copy_assign.
    rewrite (store_read _ _ _ Ha), Ok_bind, (store_read _ _ _ Hb), Ok_bind.
    rewrite bool_decide_true by done.
    rewrite bool_decide_true by (simpl; lia).
    unfold destructor, destroy_elements. simpl. rewrite Hc, Ok_bind. reflexivity.
  - apply list_lookup_insert_eq. by eapply lookup_lt_Some.
  - by rewrite list_lookup_insert_ne.
  - pose proof (wf_num _ _ Hwfc) as E1. pose proof (wf_num _ _ Hwfb) as E2.
    simpl in E1. congruence.
  - apply (wf_max _ _ Hwfc).
  - congruence.
  - intros h v Hin. by apply (live_contains Cb (c, sb.2)).
  - done.
Qed.

(** The copy assignment in place, with all it leaves. *)
Lemma copy_assign_in_place (m : list (freelist_t T)) (this other : nat)
    Ca ua sa Cb ub sb (null : bool) (u : uninit) (raw : nat → index_t) :
  this ≠ other →
  reachable T_id Ca ua sa → m !! this = Some sa.1 →
  reachable T_id Cb ub sb → m !! other = Some sb.1 →
  Cb ≤ Ca →
  ∃ r,
    copy_assign this other m null u raw = Ok (<[this := r]> m, []) ∧
    _num_objects r = _num_objects sb.1 ∧
    _max_objects r = Cb ∧ _cap_objects r = Ca ∧
    _enqueue r = _enqueue sb.1 ∧
    len (_object_ids r) = Ca ∧ len (_objects r) = Ca ∧
    (∀ j, 0 ≤ j < Cb → read (_indices r) j = read (_indices sb.1) j) ∧
    (∀ p, 0 ≤ p < _num_objects sb.1 →
          read (_objects r) p = read (_objects sb.1) p ∧
          read (_object_ids r) p = read (_object_ids sb.1) p) ∧
    (∀ p, _num_objects sb.1 ≤ p →
          read (_objects r) p = read (_objects sa.1) p) ∧
    (∀ j, Cb ≤ j → read (_indices r) j = read (_indices sa.1) j).
Proof.
  intros Hne Hra Ha Hrb Hb Hle.
  pose proof (reachable_capacity T_id _ _ _ Hra) as Hcapa.
  apply reachable_wf in Hra as Hwfa. apply reachable_wf in Hrb as Hwfb.
  pose proof (wf_num_le _ _ Hwfb) as Hnb.
  pose proof (wf_max _ _ Hwfb) as Hmb.
  pose proof (wf_capacity _ _ Hwfb) as Hcb.
  destruct (copy_elements sb.1 (Z.to_nat (_num_objects sb.1)) 0
              (_objects sa.1) (_object_ids sa.1))
    as (objs & ids & Hl1 & Hlo & Hlm & Hin1 & Hout1).
  { lia. } { rewrite (wf_objects _ _ Hwfa). lia. }
  { rewrite (wf_object_ids _ _ Hwfa). lia. }
  { rewrite (wf_object_ids _ _ Hwfb). lia. }
  { intros j Hj. destruct (wf_dense _ _ Hwfb j) as (h & v & _ & Ho); [lia|].
    destruct Ho as (_ & _ & _ & _ & _ & Hv). eauto. }
  destruct (copy_slots sb.1 (Z.to_nat (_max_objects sb.1)) 0 (_indices sa.1))
    as (inds & Hl2 & Hli & Hin2 & Hout2).
  { lia. } { rewrite (wf_indices _ _ Hwfa). lia. }
  { rewrite (wf_indices _ _ Hwfb). lia. }
  eexists. split.
  { unfold copy_assign.
    rewrite (store_read _ _ _ Ha), Ok_bind, (store_read _ _ _ Hb), Ok_bind.
    rewrite bool_decide_true by done. rewrite bool_decide_false by lia.
    rewrite (for_loop_ext _ (copy_element sb.1))
      by (intros; apply assign_element_copy).
    rewrite Hl1, Ok_bind. cbv beta iota. rewrite Hl2, Ok_bind. reflexivity. }
  simpl. split_and!; try done.
  - rewrite Hlm. apply (wf_object_ids _ _ Hwfa).
  - rewrite Hlo. apply (wf_objects _ _ Hwfa).
  - intros j Hj. apply Hin2. lia.
  - intros p Hp. apply Hin1. lia.
  - intros p Hp. apply Hout1. lia.
  - intros j Hj. apply Hout2. lia.
Qed.

(** X13. Copy assignment from a reachable pool into a different reachable
    pool whose capacity is sufficient works in place and runs no
    destructor: the destination takes the count and [_max_objects] of the
    source and keeps its own [_cap_objects], every handle of the source's
    book is valid in it with the same value, its iteration is that of the
    source, and the source is unchanged. *)
Theorem copy_assign_in_place_clones (m : list (freelist_t T))
    (this other : nat) Ca ua sa Cb ub sb (null : bool) (u : uninit)
    (raw : nat → index_t) :
  this ≠ other →
  reachable T_id Ca ua sa → m !! this = Some sa.1 →
  reachable T_id Cb ub sb → m !! other = Some sb.1 →
  Cb ≤ Ca →
  ∃ m' r,
    copy_assign this other m null u raw = Ok (m', []) ∧
    m' !! this = Some r ∧ m' !! other = Some sb.1 ∧
    _num_objects r = _num_objects sb.1 ∧
    _max_objects r = Cb ∧ _cap_objects r = Ca ∧
    (∀ h v, (h, v) ∈ sb.2 →
       contains r h = Ok true ∧ subscript r h = Ok v) ∧
    handles (Z.to_nat (_num_objects r)) r =
      handles (Z.to_nat (_num_objects sb.1)) sb.1.
Proof.
  intros Hne Hra Ha Hrb Hb Hle.
  destruct (copy_assign_in_place m this other Ca ua sa Cb ub sb null u raw)
    as (r & Hc & Hn & Hm & Hcap & _ & Hlm & _ & Hinds & Hel & _ & _);
    try done.
  apply reachable_wf in Hrb as Hwfb.
  pose proof (wf_num_le _ _ Hwfb) as Hnb.
  pose proof (wf_capacity _ _ Hwfb) as Hcb.
  exists (<[this := r]> m), r. split; [done|]. split_and!; try done.
  - apply list_lookup_insert_eq. by eapply lookup_lt_Some.
  - by rewrite list_lookup_insert_ne.
  - intros h v Hin.
    destruct (wf_live _ _ Hwfb _ _ Hin) as (p & Hp & sl & Hsl & Hid & Hix & Hh & Hv).
    apply (owns_valid r h v p); [|unfold tombstone; lia].
    exists sl. destruct (Hel p Hp) as [-> ->].
    rewrite Hinds; [done|]. apply read_range in Hsl.
    by rewrite (wf_indices _ _ Hwfb) in Hsl.
  - rewrite (handles_wf Cb sb) by done.
    rewrite handles_eval by lia. rewrite Hn. do 2 f_equal.
    apply take_agree. intros j Hj. apply Hel. lia.
Qed.

(** X16. Copy assignment in place from a pool with fewer elements leaves
    the destination's surplus elements constructed in the storage beyond
    the new count, with no destructor run; the loop of the destructor of
    the destination then reaches the copies of the source's elements
    only. *)
Theorem copy_assign_in_place_leaves_surplus (m : list (freelist_t T))
    (this other : nat) Ca ua sa Cb ub sb (null : bool) (u : uninit)
    (raw : nat → index_t) :
  this ≠ other →
  reachable T_id Ca ua sa → m !! this = Some sa.1 →
  reachable T_id Cb ub sb → m !! other = Some sb.1 →
  Cb ≤ Ca →
  ∃ m' r after,
    copy_assign this other m null u raw = Ok (m', []) ∧
    m' !! this = Some r ∧
    (∀ p, _num_objects sb.1 ≤ p < _num_objects sa.1 →
       ∃ v, read (_objects sa.1) p = Ok (Some v) ∧
            read (_objects r) p = Ok (Some v)) ∧
    destroy_elements r = Ok after ∧
    len after = _num_objects sb.1 ∧
    after ≡ₚ sb.2.*2.
Proof.
  intros Hne Hra Ha Hrb Hb Hle.
  destruct (copy_assign_in_place m this other Ca ua sa Cb ub sb null u raw)
    as (r & Hc & Hn & _ & _ & _ & _ & _ & _ & Hel & Hsur & _); try done.
  apply reachable_wf in Hra as Hwfa. apply reachable_wf in Hrb as Hwfb.
  pose proof (wf_num_le _ _ Hwfb) as Hnb.
  destruct (destroy_elements_wf Cb sb Hwfb) as (vs & _ & Hlen & Hvs & Hperm).
  destruct (destroy_loop r (Z.to_nat (_num_objects r)) 0 [])
    as (vs' & Hd & Hlen' & Hvs'); [lia| |].
  { intros j Hj. rewrite Hn in Hj.
    destruct (wf_dense _ _ Hwfb j) as (h & v & _ & Ho); [lia|].
    destruct Ho as (_ & _ & _ & _ & _ & Hv). exists v.
    destruct (Hel j) as [-> _]; [lia | done]. }
  assert (vs' = vs) as ->.
  { apply list_eq. intros j. destruct (decide (j < length vs)%nat) as [Hj|Hj].
    - specialize (Hvs j Hj). specialize (Hvs' j ltac:(lia)).
      rewrite Z.add_0_l in Hvs'. destruct (Hel (Z.of_nat j)) as [E _]; [lia|].
      congruence.
    - rewrite !lookup_ge_None_2 by lia. done. }
  exists (<[this := r]> m), r, vs. split; [done|]. split_and!; try done.
  - apply list_lookup_insert_eq. by eapply lookup_lt_Some.
  - intros p Hp.
    destruct (wf_dense _ _ Hwfa p) as (h & v & _ & Ho); [lia|].
    destruct Ho as (_ & _ & _ & _ & _ & Hv). exists v. split; [done|].
    rewrite Hsur by lia. done.
Qed.

(** X17. After a copy assignment in place from a full pool of smaller
    capacity, an insertion into the destination meets neither the
    assertion nor the end of the arrays: it takes the slot with the index
    [_max_objects] from the destination's old slot table, and the count
    exceeds [_max_objects]. *)
Theorem insertion_beyond_capacity_after_copy (m : list (freelist_t T))
    (this other : nat) Ca ua sa Cb ub sb (null : bool) (u : uninit)
    (raw : nat → index_t) v :
  this ≠ other →
  reachable T_id Ca ua sa → m !! this = Some sa.1 →
  reachable T_id Cb ub sb → m !! other = Some sb.1 →
  Cb < Ca →
  _num_objects sb.1 = _max_objects sb.1 →
  ∃ m' r h r',
    copy_assign this other m null u raw = Ok (m', []) ∧
    m' !! this = Some r ∧
    _num_objects r = _max_objects r ∧
    emplace r v = Ok (h, r') ∧
    slot_of h = Cb ∧
    _max_objects r' = Cb ∧
    _num_objects r' = Cb + 1.
Proof.
  intros Hne Hra Ha Hrb Hb Hlt Hfull.
  destruct (copy_assign_in_place m this other Ca ua sa Cb ub sb null u raw)
    as (r & Hc & Hn & Hm & _ & He & Hlm & Hlo & _ & _ & _ & Hold);
    try done; [lia|].
  destruct (insert_alloc_full_undefined T_id Cb ub sb Hrb Hfull) as [Heq _].
  apply reachable_wf in Hra as Hwfa. apply reachable_wf in Hrb as Hwfb.
  pose proof (wf_max _ _ Hwfb) as Hmb.
  pose proof (wf_capacity _ _ Hwfa) as Hca.
  pose proof (wf_capacity _ _ Hwfb) as Hcb.
  destruct (read_in_range (_indices sa.1) Cb) as [sl Hsl].
  { rewrite (wf_indices _ _ Hwfa). lia. }
  destruct (wf_slots _ _ Hwfa _ _ Hsl) as [_ Hslot].
  exists (<[this := r]> m), r, (bump sl), (placed r sl v).
  split; [done|]. split_and!.
  - apply list_lookup_insert_eq. by eapply lookup_lt_Some.
  - congruence.
  - apply emplace_eval; unfold uint16_mod; try lia.
    rewrite He, Heq, Hold by lia. done.
  - unfold bump. by rewrite slot_of_bump.
  - done.
  - simpl. lia.
Qed.

End Assignment.

Section InsertOverloads.
Context {T : Type}.
Variable T_id : T → Z.

(** X2. In a reachable state with room, [insert] and [emplace] leave the
    pool in the same state; the handle of the new element, which only
    [emplace] returns, is at the end of the handle mirror, passes
    [contains] and leads to the element; the count grows by one. *)
Theorem insert_same_state_as_emplace C u (s : tracked T) (v : T) :
  reachable T_id C u s → _num_objects s.1 < _max_objects s.1 →
  ∃ h fl',
    emplace s.1 v = Ok (h, fl') ∧ insert T_id s.1 v = Ok (T_id v, fl') ∧
    contains fl' h = Ok true ∧ subscript fl' h = Ok v ∧
    read (_object_ids fl') (_num_objects s.1) = Ok h ∧
    _num_objects fl' = _num_objects s.1 + 1.
Proof.
  intros Hwf%reachable_wf Hlt.
  destruct (insertion_spec T_id C s v Hwf Hlt)
    as (sl & _ & _ & He & Hi & _ & _ & Hwf').
  exists (bump sl), (placed s.1 sl v). split; [done|]. split; [done|].
  destruct (live_contains C (placed s.1 sl v, (bump sl, v) :: s.2)
              (bump sl) v Hwf') as [Hc Hs]; [left|].
  split; [done|]. split; [done|]. split; [|done]. simpl.
  pose proof (wf_num_le _ _ Hwf). pose proof (wf_max _ _ Hwf).
  apply read_insert_eq. rewrite (wf_object_ids _ _ Hwf). lia.
Qed.
End InsertOverloads.

(** ** The properties above at concrete pools *)

Lemma pool_abc_reachable : reachable item_id 4 zeroed pool_abc.
Proof. apply after_reachable; [lia | vm_compute; reflexivity]. Qed.
Lemma pool_ab_reachable : reachable item_id 2 zeroed pool_ab.
Proof. apply after_reachable; [lia | vm_compute; reflexivity]. Qed.
Lemma pool_c_reachable : reachable item_id 3 zeroed pool_c.
Proof. apply after_reachable; [lia | vm_compute; reflexivity]. Qed.

Lemma erase_twice_fatal_witness :
  ∃ fl1, erase pool_abc.1 0x10001 = Ok fl1 ∧ erase fl1 0x10001 = Fatal.
Proof.
  apply (erase_twice_fatal item_id 4 zeroed pool_abc 0x10001).
  - exact pool_abc_reachable.
  - by_eval.
Defined.

Lemma insert_same_state_as_emplace_witness :
  ∃ h fl',
    emplace pool_abc.1 item_0 = Ok (h, fl') ∧
    insert item_id pool_abc.1 item_0 = Ok (item_id item_0, fl') ∧
    contains fl' h = Ok true ∧ subscript fl' h = Ok item_0 ∧
    read (_object_ids fl') (_num_objects pool_abc.1) = Ok h ∧
    _num_objects fl' = _num_objects pool_abc.1 + 1.
Proof.
  apply (insert_same_state_as_emplace item_id 4 zeroed pool_abc item_0).
  - exact pool_abc_reachable.
  - vm_compute. reflexivity.
Defined.

Lemma subscript_erased_out_of_bounds_witness :
  ∃ fl1, erase pool_abc.1 0x10001 = Ok fl1 ∧ subscript fl1 0x10001 = Undefined.
Proof.
  apply (subscript_erased_out_of_bounds item_id 4 zeroed pool_abc 0x10001).
  - exact pool_abc_reachable.
  - by_eval.
Defined.

Lemma subscript_ignores_generation_witness :
  ∃ fl1 h' fl2,
    erase pool_abc.1 0x10001 = Ok fl1 ∧ emplace fl1 item_0 = Ok (h', fl2) ∧
    h' ≠ 0x10001 ∧ contains fl2 0x10001 = Ok false ∧
    subscript fl2 0x10001 = Ok item_0 ∧ subscript fl2 h' = Ok item_0.
Proof.
  apply (subscript_ignores_generation item_id 4 zeroed pool_abc 0x10001 item_0).
  - exact pool_abc_reachable.
  - by_eval.
Defined.

Lemma count_is_insertions_minus_erasures_witness :
  _num_objects
    (after 4 [Emplace item_a; Insert item_b; Erase 0x10000; Emplace item_c]).1 =
    insertions [Emplace item_a; Insert item_b; Erase 0x10000; Emplace item_c]
    - erasures [Emplace item_a; Insert item_b; Erase 0x10000; Emplace item_c] ∧
  0 ≤ _num_objects
    (after 4 [Emplace item_a; Insert item_b; Erase 0x10000; Emplace item_c]).1
    ≤ 4 ∧
  _num_objects
    (after 4 [Emplace item_a; Insert item_b; Erase 0x10000; Emplace item_c]).1 =
    len (after 4 [Emplace item_a; Insert item_b; Erase 0x10000;
                  Emplace item_c]).2.
Proof.
  apply (count_is_insertions_minus_erasures item_id 4 zeroed (pool_of 4)).
  - lia.
  - apply pool_of_new. lia.
  - vm_compute. reflexivity.
  - vm_compute. reflexivity.
Defined.

Lemma contains_iff_live_witness :
  contains pool_abc.1 0x10002 = Ok true ↔ 0x10002 ∈ pool_abc.2.*1.
Proof.
  apply (contains_iff_live item_id 4 zeroed pool_abc 0x10002).
  - exact pool_abc_reachable.
  - lia.
Defined.

Lemma insertion_appends_to_iteration_witness :
  ∃ h fl' hs,
    emplace pool_abc.1 item_0 = Ok (h, fl') ∧
    insert item_id pool_abc.1 item_0 = Ok (item_id item_0, fl') ∧
    handles (Z.to_nat (_num_objects pool_abc.1)) pool_abc.1 = Some (Ok hs) ∧
    handles (Z.to_nat (_num_objects fl')) fl' = Some (Ok (hs ++ [h])).
Proof.
  apply (insertion_appends_to_iteration item_id 4 zeroed pool_abc item_0).
  - exact pool_abc_reachable.
  - vm_compute. reflexivity.
Defined.

Lemma erase_moves_last_handle_witness :
  ∃ fl' hs (p : nat) hl,
    erase pool_abc.1 0x10000 = Ok fl' ∧
    handles (Z.to_nat (_num_objects pool_abc.1)) pool_abc.1 = Some (Ok hs) ∧
    hs !! p = Some 0x10000 ∧ last hs = Some hl ∧
    handles (Z.to_nat (_num_objects fl')) fl' =
      Some (Ok (take (length hs - 1) (<[p := hl]> hs))).
Proof.
  apply (erase_moves_last_handle item_id 4 zeroed pool_abc 0x10000).
  - exact pool_abc_reachable.
  - by_eval.
Defined.

Lemma emplace_erase_round_trip_witness :
  ∃ h fl1 fl2,
    emplace pool_abc.1 item_0 = Ok (h, fl1) ∧ erase fl1 h = Ok fl2 ∧
    _num_objects fl2 = _num_objects pool_abc.1 ∧
    _enqueue fl2 = _enqueue pool_abc.1 ∧
    handles (Z.to_nat (_num_objects fl2)) fl2 =
      handles (Z.to_nat (_num_objects pool_abc.1)) pool_abc.1 ∧
    (∀ h' v', (h', v') ∈ pool_abc.2 →
       contains fl2 h' = Ok true ∧ subscript fl2 h' = Ok v') ∧
    contains fl2 h = Ok false.
Proof.
  apply (emplace_erase_round_trip item_id 4 zeroed pool_abc item_0).
  - exact pool_abc_reachable.
  - vm_compute. reflexivity.
Defined.

Lemma live_slots_distinct_witness :
  0 ≤ slot_of 0x10000 < 4 ∧ (slot_of 0x10000 = slot_of 0x10002 → 0x10000 = 0x10002).
Proof.
  apply (live_slots_distinct item_id 4 zeroed pool_abc 0x10000 0x10002).
  - exact pool_abc_reachable.
  - by_eval.
  - by_eval.
Defined.


Lemma copy_constructor_clones_witness :
  ∃ fl', copy_construct pool_abc.1 zeroed raw_zero = Ok fl' ∧
         _num_objects fl' = _num_objects pool_abc.1 ∧
         _max_objects fl' = _max_objects pool_abc.1 ∧
         (∀ h v, (h, v) ∈ pool_abc.2 →
            contains fl' h = Ok true ∧ subscript fl' h = Ok v) ∧
         handles (Z.to_nat (_num_objects fl')) fl' =
           handles (Z.to_nat (_num_objects pool_abc.1)) pool_abc.1 ∧
         wf 4 (fl', pool_abc.2).
Proof.
  apply (copy_constructor_clones item_id 4 zeroed pool_abc zeroed raw_zero).
  exact pool_abc_reachable.
Defined.

Lemma copy_assign_in_place_clones_witness :
  ∃ m' r,
    copy_assign 0 1 [pool_abc.1; pool_c.1] false zeroed raw_zero = Ok (m', []) ∧
    m' !! 0%nat = Some r ∧ m' !! 1%nat = Some pool_c.1 ∧
    _num_objects r = _num_objects pool_c.1 ∧
    _max_objects r = 3 ∧ _cap_objects r = 4 ∧
    (∀ h v, (h, v) ∈ pool_c.2 →
       contains r h = Ok true ∧ subscript r h = Ok v) ∧
    handles (Z.to_nat (_num_objects r)) r =
      handles (Z.to_nat (_num_objects pool_c.1)) pool_c.1.
Proof.
  apply (copy_assign_in_place_clones item_id [pool_abc.1; pool_c.1] 0 1
           4 zeroed pool_abc 3 zeroed pool_c false zeroed raw_zero).
  - lia.
  - exact pool_abc_reachable.
  - reflexivity.
  - exact pool_c_reachable.
  - reflexivity.
  - lia.
Defined.

Lemma copy_assign_reallocates_witness :
  _cap_objects pool_ab.1 < _max_objects pool_abc.1 ∧
  (∃ destroyed, destroy_elements pool_ab.1 = Ok destroyed ∧
                destroyed ≡ₚ pool_ab.2.*2) ∧
  copy_assign 0 1 [pool_ab.1; pool_abc.1] false zeroed raw_zero = Undefined.
Proof.
  apply (copy_assign_reallocates item_id [pool_ab.1; pool_abc.1] 0 1
           2 zeroed pool_ab 4 zeroed pool_abc zeroed raw_zero).
  - lia.
  - exact pool_ab_reachable.
  - reflexivity.
  - exact pool_abc_reachable.
  - reflexivity.
  - lia.
Defined.

Lemma copy_assign_into_default_pool_witness :
  ∃ m' c,
    copy_assign 0 1 [freelist_default; pool_abc.1] true zeroed raw_zero
      = Ok (m', []) ∧
    m' !! 0%nat = Some c ∧ m' !! 1%nat = Some pool_abc.1 ∧
    _num_objects c = _num_objects pool_abc.1 ∧
    _max_objects c = 4 ∧ _cap_objects c = 4 ∧
    (∀ h v, (h, v) ∈ pool_abc.2 →
       contains c h = Ok true ∧ subscript c h = Ok v) ∧
    wf 4 (c, pool_abc.2).
Proof.
  apply (copy_assign_into_default_pool item_id
           [freelist_default; pool_abc.1] 0 1 4 zeroed pool_abc zeroed raw_zero).
  - lia.
  - reflexivity.
  - exact pool_abc_reachable.
  - reflexivity.
  - lia.
Defined.

Lemma destructor_destroys_live_elements_witness :
  ∃ vs, destroy_elements pool_abc.1 = Ok vs ∧
        len vs = _num_objects pool_abc.1 ∧
        vs ≡ₚ pool_abc.2.*2 ∧
        destructor false pool_abc.1 = Undefined.
Proof.
  apply (destructor_destroys_live_elements item_id 4 zeroed pool_abc).
  exact pool_abc_reachable.
Defined.

Lemma copy_assign_in_place_leaves_surplus_witness :
  ∃ m' r after,
    copy_assign 0 1 [pool_abc.1; pool_c.1] false zeroed raw_zero = Ok (m', []) ∧
    m' !! 0%nat = Some r ∧
    (∀ p, _num_objects pool_c.1 ≤ p < _num_objects pool_abc.1 →
       ∃ v, read (_objects pool_abc.1) p = Ok (Some v) ∧
            read (_objects r) p = Ok (Some v)) ∧
    destroy_elements r = Ok after ∧
    len after = _num_objects pool_c.1 ∧
    after ≡ₚ pool_c.2.*2.
Proof.
  apply (copy_assign_in_place_leaves_surplus item_id [pool_abc.1; pool_c.1] 0 1
           4 zeroed pool_abc 3 zeroed pool_c false zeroed raw_zero).
  - lia.
  - exact pool_abc_reachable.
  - reflexivity.
  - exact pool_c_reachable.
  - reflexivity.
  - lia.
Defined.

Lemma insertion_beyond_capacity_after_copy_witness :
  ∃ m' r h r',
    copy_assign 0 1 [pool_abc.1; pool_ab.1] false zeroed raw_zero = Ok (m', []) ∧
    m' !! 0%nat = Some r ∧
    _num_objects r = _max_objects r ∧
    emplace r item_0 = Ok (h, r') ∧
    slot_of h = 2 ∧
    _max_objects r' = 2 ∧
    _num_objects r' = 2 + 1.
Proof.
  apply (insertion_beyond_capacity_after_copy item_id [pool_abc.1; pool_ab.1]
           0 1 4 zeroed pool_abc 2 zeroed pool_ab false zeroed raw_zero item_0).
  - lia.
  - exact pool_abc_reachable.
  - reflexivity.
  - exact pool_ab_reachable.
  - reflexivity.
  - lia.
  - vm_compute. reflexivity.
Defined.
